(** * Guard variables for function-local statics: cxa_guard.cpp

    A shallow embedding of [src/cxa_guard.cpp] (the Duetto port of
    libc++abi's one-time-construction API) and the properties of its three
    entry points [__cxa_guard_acquire], [__cxa_guard_release] and
    [__cxa_guard_abort].

    The file is compiled under one of several preprocessor configurations.
    They are kept apart by the type [target]; every definition below
    branches on the same macro tests as the source does.  Byte order is
    little-endian throughout (the [char*] and [union] accesses of the source
    read the guard word's bytes by address), so the accessors of the
    [#else // __LITTLE_ENDIAN__] branch are never selected.

    A call of an entry point is a computation over the guard word that asks
    the threading library for the outcome of each pthread call; it ends by
    returning, by [abort_message] (the process is terminated), or blocked in
    [pthread_cond_wait]. *)

From Stdlib Require Import ZArith Lia String List Bool.
From stdpp Require Import base list.
Import ListNotations.

Local Open Scope string_scope.
Local Open Scope list_scope.
Local Open Scope Z_scope.

(** ** Build configurations *)

Inductive target : Type :=
| Duetto      (* __DUETTO__ : no threads, 32-bit guard *)
| Apple64     (* __APPLE__ && !__arm__ : 64-bit guard, lock holds a thread id *)
| Arm32       (* __arm__ && !__DUETTO__ : 32-bit guard, boolean lock *)
| Generic64.  (* none of the macros : 64-bit guard, boolean lock *)

Definition def_DUETTO (t : target) : bool :=
  match t with Duetto => true | _ => false end.
Definition def_APPLE (t : target) : bool :=
  match t with Apple64 => true | _ => false end.
Definition def_arm (t : target) : bool :=
  match t with Arm32 => true | _ => false end.

(** [#if __arm__ || __DUETTO__] : [typedef uint32_t guard_type], otherwise
    [typedef uint64_t guard_type]. *)
Definition narrow_guard (t : target) : bool := def_arm t || def_DUETTO t.

Definition guard_bits (t : target) : Z := if narrow_guard t then 32 else 64.

(** [#if (defined(__APPLE__) || defined(__DUETTO__)) && !defined(__arm__)] :
    [typedef uint32_t lock_type], otherwise [typedef bool lock_type]. *)
Definition wide_lock (t : target) : bool :=
  (def_APPLE t || def_DUETTO t) && negb (def_arm t).

(** ** The guard word and its two fields *)

(** The byte of the word [x] at address offset [i] (what [((char* )&x)[i]]
    or the [lock[i]] member of the unions reads). *)
Definition char_at (x i : Z) : Z := Z.land (Z.shiftr x (8 * i)) 255.

(** A value converted to [lock_type] : reduced modulo 2^32 for [uint32_t],
    collapsed to 0/1 for [bool]. *)
Definition lock_cast (t : target) (v : Z) : Z :=
  if wide_lock t then v mod 2 ^ 32 else if v =? 0 then 0 else 1.

Definition is_initialized (t : target) (x : Z) : bool :=
  if narrow_guard t
  then negb (Z.land x 1 =? 0)          (* return ( *guard_object) & 1; *)
  else negb (char_at x 0 =? 0).        (* return *initialized; *)

Definition set_initialized (t : target) (x : Z) : Z :=
  if narrow_guard t
  then Z.lor x 1                       (* *guard_object |= 1; *)
  else Z.lor (Z.ldiff x 255) 1.        (* *initialized = 1; *)

Definition get_lock (t : target) (x : Z) : Z :=
  if wide_lock t then
    if def_DUETTO t
    then x mod 2 ^ 32                  (* static_cast<lock_type>(x) *)
    else Z.shiftr x 32 mod 2 ^ 32      (* static_cast<lock_type>(x >> 32) *)
  else
    if char_at x 1 =? 0 then 0 else 1. (* f.lock[1] != 0 *)

(** [set_lock(x, y)]: the word [x] is passed by reference and overwritten;
    the function returns its new contents. *)
Definition set_lock (t : target) (x y : Z) : Z :=
  if wide_lock t then
    if def_DUETTO t
    then lock_cast t y                 (* x = static_cast<uint32_t>(y); *)
    else Z.shiftl (lock_cast t y) 32   (* x = static_cast<uint64_t>(y) << 32; *)
  else
    Z.shiftl (lock_cast t y) 8.        (* f = {0}; f.lock[1] = y; x = f.guard; *)

(** ** The process as seen by one call *)

Inductive prim : Type := MutexLock | MutexUnlock | CondWait | CondBroadcast.

(** One return of [pthread_cond_wait]: its return code and the contents of
    the guard word once the mutex is held again. *)
Record wake : Type := Wake { wake_rc : Z; wake_guard : Z }.

(** What the threading library answers to one call of an entry point. *)
Record env : Type := Env {
  lock_rc : Z;            (* pthread_mutex_lock(&guard_mut) *)
  wakes : list wake;      (* successive returns of pthread_cond_wait *)
  unlock_rc : Z;          (* pthread_mutex_unlock(&guard_mut) *)
  broadcast_rc : Z        (* pthread_cond_broadcast(&guard_cv) *)
}.

(** The guard word, the values this call has stored into it, and the log of
    the pthread calls that have returned together with their return codes
    (both most recent first). *)
Record world : Type := World {
  guard : Z;
  writes : list Z;
  calls : list (prim * Z)
}.

Inductive result (A : Type) : Type :=
| Done (a : A) (w : world)          (* the function returned [a] *)
| Fatal (msg : string) (w : world)  (* abort_message(msg): process terminated *)
| Parked (w : world).               (* blocked in pthread_cond_wait for good *)
Arguments Done {A} a w.
Arguments Fatal {A} msg w.
Arguments Parked {A} w.

Definition M (A : Type) : Type := world -> result A.

Definition ret {A} (a : A) : M A := fun w => Done a w.

Definition bind {A B} (m : M A) (k : A -> M B) : M B :=
  fun w => match m w with
           | Done a w' => k a w'
           | Fatal msg w' => Fatal msg w'
           | Parked w' => Parked w'
           end.

Notation "x <- m ;; k" := (bind m (fun x => k))
  (at level 90, m at level 60, right associativity).
Notation "m ;;; k" := (bind m (fun _ => k))
  (at level 90, right associativity).

Definition abort_message {A} (msg : string) : M A := fun w => Fatal msg w.

Definition load : M Z := fun w => Done (guard w) w.

(** The world once the pthread call [p] has returned [rc]. *)
Definition logged (p : prim) (rc : Z) (w : world) : world :=
  World (guard w) (writes w) ((p, rc) :: calls w).

Definition returned (p : prim) (rc : Z) : M Z :=
  fun w => Done rc (logged p rc w).

Definition pthread_mutex_lock (e : env) : M Z := returned MutexLock (lock_rc e).
Definition pthread_mutex_unlock (e : env) : M Z := returned MutexUnlock (unlock_rc e).
Definition pthread_cond_broadcast (e : env) : M Z := returned CondBroadcast (broadcast_rc e).

(** [pthread_cond_wait] returning with answer [k]: the other threads have
    left the guard word as [wake_guard k]. *)
Definition woken (k : wake) : M Z :=
  fun w => Done (wake_rc k)
              (World (wake_guard k) (writes w) ((CondWait, wake_rc k) :: calls w)).

(** The world once [v] has been stored into the guard word. *)
Definition stored (v : Z) (w : world) : world :=
  World v (v :: writes w) (calls w).

Definition store (v : Z) : M unit := fun w => Done tt (stored v w).

(** [if (call) abort_message(msg);] *)
Definition check (call : M Z) (msg : string) : M unit :=
  rc <- call ;; if rc =? 0 then ret tt else abort_message msg.

(** [#ifndef __DUETTO__ ... #endif] *)
Definition ifndef_DUETTO (t : target) (m : M unit) : M unit :=
  if def_DUETTO t then ret tt else m.

(** ** The wait loops of [__cxa_guard_acquire]

    Both recurse on the answers the condition variable still has to give;
    when none is left the thread stays blocked. *)

(** [while (get_lock( *guard_object))
         if (pthread_cond_wait(&guard_cv, &guard_mut)) abort_message(...);] *)
Fixpoint wait_while_locked (t : target) (ws : list wake) : M unit :=
  fun w =>
    if get_lock t (guard w) =? 0 then Done tt w
    else match ws with
         | [] => Parked w
         | k :: ws' =>
             (check (woken k) "__cxa_guard_acquire condition variable wait failed" ;;;
              wait_while_locked t ws') w
         end.

(** [do { if (pthread_cond_wait(&guard_cv, &guard_mut)) abort_message(...);
         lock = get_lock( *guard_object); } while (lock);] *)
Fixpoint wait_do_while_lock (t : target) (ws : list wake) : M unit :=
  fun w =>
    match ws with
    | [] => Parked w
    | k :: ws' =>
        (check (woken k) "__cxa_guard_acquire condition variable wait failed" ;;;
         lock <- (fun w' => Done (get_lock t (guard w')) w') ;;
         if lock =? 0 then ret tt else wait_do_while_lock t ws') w
    end.

(** ** The three entry points *)

Definition __cxa_guard_acquire (t : target) (tid : Z) (e : env) : M Z :=
  ifndef_DUETTO t
    (check (pthread_mutex_lock e) "__cxa_guard_acquire failed to acquire mutex") ;;;
  g <- load ;;
  let result := char_at g 0 =? 0 in            (* int result = *initialized == 0; *)
  result <-
    (if result then
       if def_APPLE t && negb (def_arm t) then
         let id := lock_cast t tid in           (* pthread_mach_thread_np(pthread_self()) *)
         let lock := get_lock t g in
         if negb (lock =? 0) then
           (if lock =? id
            then abort_message "__cxa_guard_acquire detected deadlock"
            else ret tt) ;;;
           wait_do_while_lock t (wakes e) ;;;
           g <- load ;;
           let result := negb (is_initialized t g) in
           (if result then store (set_lock t g id) else ret tt) ;;;
           ret result
         else
           store (set_lock t g id) ;;;
           ret result
       else
         ifndef_DUETTO t (wait_while_locked t (wakes e)) ;;;
         g <- load ;;
         let result := char_at g 0 =? 0 in      (* result = *initialized == 0; *)
         (if result then store (set_lock t g 1) else ret tt) ;;;
         ret result
     else ret result) ;;
  ifndef_DUETTO t
    (check (pthread_mutex_unlock e) "__cxa_guard_acquire failed to release mutex") ;;;
  ret (Z.b2z result).

Definition __cxa_guard_release (t : target) (e : env) : M unit :=
  ifndef_DUETTO t
    (check (pthread_mutex_lock e) "__cxa_guard_release failed to acquire mutex") ;;;
  store 0 ;;;
  g <- load ;; store (set_initialized t g) ;;;
  ifndef_DUETTO t
    (check (pthread_mutex_unlock e) "__cxa_guard_release failed to release mutex" ;;;
     check (pthread_cond_broadcast e)
       "__cxa_guard_release failed to broadcast condition variable").

Definition __cxa_guard_abort (t : target) (e : env) : M unit :=
  ifndef_DUETTO t
    (check (pthread_mutex_lock e) "__cxa_guard_abort failed to acquire mutex") ;;;
  store 0 ;;;
  ifndef_DUETTO t
    (check (pthread_mutex_unlock e) "__cxa_guard_abort failed to release mutex" ;;;
     check (pthread_cond_broadcast e)
       "__cxa_guard_abort failed to broadcast condition variable").

(** What a granted call stores in the lock field: the thread's identity on
    Apple ([set_lock( *guard_object, id)]), [true] elsewhere. *)
Definition own_lock (t : target) (tid : Z) : Z :=
  if def_APPLE t && negb (def_arm t) then lock_cast t tid else 1.

(** The threading library when every call succeeds and the condition
    variable answers [ws]. *)
Definition quiet (ws : list wake) : env := Env 0 ws 0 0.

(** A world holding guard word [g], with nothing logged yet. *)
Definition fresh (g : Z) : world := World g [] [].

(** A sequence of calls of [__cxa_guard_acquire] on the same guard word, one
    after the other, each by a thread identity with its own answers from
    the threading library. *)
Fixpoint acquire_each (t : target) (cs : list (Z * env)) : M (list Z) :=
  match cs with
  | [] => ret []
  | (tid, e) :: cs' =>
      r <- __cxa_guard_acquire t tid e ;;
      rs <- acquire_each t cs' ;;
      ret (r :: rs)
  end.

(** ** The states of a guard word

    UNINITIALIZED is the all-zero word, IN_PROGRESS has the lock field set
    and the initialized field clear, INITIALIZED has the initialized field
    set.  The fields are read with the accessors of the source. *)

Inductive gstate : Type := UNINITIALIZED | IN_PROGRESS | INITIALIZED.

Definition state_of (t : target) (g : Z) : option gstate :=
  if is_initialized t g then Some INITIALIZED
  else if negb (get_lock t g =? 0) then Some IN_PROGRESS
  else if g =? 0 then Some UNINITIALIZED
  else None.

(** The bit positions [get_lock] reads: the whole word under [__DUETTO__],
    the upper half on Apple, the byte at offset 1 otherwise. *)
Definition in_lock_field (t : target) (i : Z) : bool :=
  if wide_lock t then
    if def_DUETTO t then (0 <=? i) && (i <? 32)
    else (32 <=? i) && (i <? 64)
  else (8 <=? i) && (i <? 16).

(** The bit positions [is_initialized] reads: bit 0 on the narrow targets,
    the byte at offset 0 otherwise. *)
Definition in_initialized_field (t : target) (i : Z) : bool :=
  if narrow_guard t then i =? 0 else (0 <=? i) && (i <? 8).

(** ** Threads racing for one guard word

    Every critical section of the three entry points runs with [guard_mut]
    held, so the threads interleave at the granularity of critical sections:
    from the call to the return or the first [pthread_cond_wait], and from
    one return of [pthread_cond_wait] to the next or to the return.  Under
    [__DUETTO__] there is a single thread of control and a call is one step.

    A thread that has been granted the guard runs the initializer and calls
    [__cxa_guard_release].  No pthread call fails. *)

Inductive status : Type :=
| Idle                                (* has not called acquire yet *)
| Waiting (g0 : Z) (ws : list wake)   (* in pthread_cond_wait; entered on [g0], woken by [ws] so far *)
| Returned (r : Z)                    (* acquire returned [r] *)
| Released.                           (* acquire returned nonzero, release was called *)

Record system : Type := System {
  word : Z;                           (* the guard word *)
  pool : list (Z * status);           (* thread identity and status *)
  crashed : option string             (* the abort_message that ended the process *)
}.

(** Thread [i], which entered acquire on [g0] and has been woken by [ws],
    runs up to its return or to its next wait. *)
Definition settle (t : target) (i : nat) (tid g0 : Z) (ws : list wake)
    (s : system) : system :=
  match __cxa_guard_acquire t tid (quiet ws) (fresh g0) with
  | Done r w => System (guard w) (<[i := (tid, Returned r)]> (pool s)) (crashed s)
  | Parked _ => System (word s) (<[i := (tid, Waiting g0 ws)]> (pool s)) (crashed s)
  | Fatal msg _ => System (word s) (pool s) (Some msg)
  end.

(** Thread [i] calls [__cxa_guard_release]. *)
Definition finish (t : target) (i : nat) (tid : Z) (s : system) : system :=
  match __cxa_guard_release t (quiet []) (fresh (word s)) with
  | Done _ w => System (guard w) (<[i := (tid, Released)]> (pool s)) (crashed s)
  | Parked _ => s
  | Fatal msg _ => System (word s) (pool s) (Some msg)
  end.

(** Thread [i] takes its next step. *)
Definition step (t : target) (i : nat) (s : system) : system :=
  match crashed s, pool s !! i with
  | None, Some (tid, Idle) => settle t i tid (word s) [] s
  | None, Some (tid, Waiting g0 ws) =>
      settle t i tid g0 (ws ++ [Wake 0 (word s)]) s
  | None, Some (tid, Returned r) => if r =? 0 then s else finish t i tid s
  | _, _ => s
  end.

Definition run (t : target) (sched : list nat) (s : system) : system :=
  fold_left (fun s i => step t i s) sched s.

(** [tids] are about to race for a zero-initialized guard word. *)
Definition start (tids : list Z) : system :=
  System 0 (map (fun tid => (tid, Idle)) tids) None.

(** Thread identities as [pthread_mach_thread_np] hands them out: nonzero
    32-bit port names. *)
Definition thread_id (tid : Z) : Prop := 0 < tid < 2 ^ 32.

Definition granted (p : Z * status) : bool :=
  match snd p with
  | Returned r => negb (r =? 0)
  | Released => true
  | _ => false
  end.

Definition refused (p : Z * status) : bool :=
  match snd p with Returned r => r =? 0 | _ => false end.

Definition finished (p : Z * status) : bool :=
  match snd p with
  | Returned r => r =? 0
  | Released => true
  | _ => false
  end.

Definition count (f : Z * status -> bool) (s : system) : nat :=
  length (filter (fun p => f p = true) (pool s)).

(** ** The shape of the race

    The word a granted call leaves on the all-zero guard word. *)
Definition granted_word (t : target) (tid : Z) : Z :=
  set_lock t 0 (own_lock t tid).

(** What a thread other than the initializer can be doing while the
    initializer holds the word [G] ([rel = false]) or after it has released
    it ([rel = true]). *)
Definition bystander (t : target) (G : Z) (rel : bool) (p : Z * status) : Prop :=
  snd p = Idle \/
  (def_DUETTO t = false /\ exists n, snd p = Waiting G (repeat (Wake 0 G) n)) \/
  ((def_DUETTO t = true \/ rel = true) /\ snd p = Returned 0).

(** Thread [k] is the initializer: it has been granted the word and, when
    [rel] is set, has released it. *)
Definition phase (t : target) (s : system) (rel : bool) (k : nat) : Prop :=
  exists tidk,
    pool s !! k = Some (tidk, if rel then Released else Returned 1) /\
    word s = (if rel then 1 else granted_word t tidk) /\
    forall i p, i <> k -> pool s !! i = Some p ->
                bystander t (granted_word t tidk) rel p.

Definition inv (t : target) (tids : list Z) (s : system) : Prop :=
  crashed s = None /\
  fst <$> pool s = tids /\
  ((word s = 0 /\ Forall (fun p => snd p = Idle) (pool s)) \/
   exists rel k, phase t s rel k).

(** On Apple the lock field tells threads apart by their identity: the
    threads of the pool have identities of their own. *)
Definition identities_ok (t : target) (tids : list Z) : Prop :=
  def_APPLE t = true -> NoDup tids /\ Forall thread_id tids.

(** Thread [i] is through: its acquire has returned 0, or it has been
    granted the word and has released it. *)
Definition done_at (s : system) (i : nat) : Prop :=
  exists p, pool s !! i = Some p /\ finished p = true.

Definition all_done (s : system) : Prop :=
  Forall (fun p => finished p = true) (pool s).

(** ** Fatal errors

    The diagnostic each entry point passes to [abort_message] when the
    pthread call [p] returns nonzero (the empty string where the entry point
    never makes that call). *)

Inductive entry : Type := Acquire | Release | Abort.

Definition diagnostic (op : entry) (p : prim) : string :=
  match op, p with
  | Acquire, MutexLock => "__cxa_guard_acquire failed to acquire mutex"
  | Acquire, CondWait => "__cxa_guard_acquire condition variable wait failed"
  | Acquire, MutexUnlock => "__cxa_guard_acquire failed to release mutex"
  | Release, MutexLock => "__cxa_guard_release failed to acquire mutex"
  | Release, MutexUnlock => "__cxa_guard_release failed to release mutex"
  | Release, CondBroadcast =>
      "__cxa_guard_release failed to broadcast condition variable"
  | Abort, MutexLock => "__cxa_guard_abort failed to acquire mutex"
  | Abort, MutexUnlock => "__cxa_guard_abort failed to release mutex"
  | Abort, CondBroadcast =>
      "__cxa_guard_abort failed to broadcast condition variable"
  | _, _ => ""
  end.

Definition world_of {A} (r : result A) : world :=
  match r with Done _ w | Fatal _ w | Parked w => w end.

Definition fatal_message {A} (r : result A) : option string :=
  match r with Fatal msg _ => Some msg | _ => None end.

(** Every logged pthread call has returned 0. *)
Definition zero_rcs (w : world) : Prop := Forall (fun c => snd c = 0) (calls w).

(** An outcome of entry point [op] is settled when no logged call has
    failed, or the process was terminated right after the one failing call,
    with the diagnostic of that call. *)
Definition settled (op : entry) {A} (r : result A) : Prop :=
  match r with
  | Done _ w | Parked w => zero_rcs w
  | Fatal msg w =>
      match calls w with
      | [] => True
      | (p, rc) :: rest =>
          Forall (fun c => snd c = 0) rest /\ (rc <> 0 -> msg = diagnostic op p)
      end
  end.

(** A computation is careful when, started with no failed call in the log,
    it ends settled. *)
Definition careful (op : entry) {A} (m : M A) : Prop :=
  forall w, zero_rcs w -> settled op (m w).

(** ** The lock accessors of big-endian Apple targets

    The [#else // __LITTLE_ENDIAN__] pair works on the 64-bit guard of a
    big-endian target: the lock is the low half of the value, and the byte at
    address offset 0, which [is_initialized] and [set_initialized] address
    through a [char*], is the most significant one. *)

Definition get_lock_big_endian (x : Z) : Z :=
  x mod 2 ^ 32.                       (* static_cast<lock_type>(x) *)

Definition set_lock_big_endian (x y : Z) : Z :=
  y mod 2 ^ 32.                       (* x = y; with y a uint32_t *)

(** The byte of the 64-bit word [x] at address offset [i], big-endian. *)
Definition char_at_big_endian (x i : Z) : Z := char_at x (7 - i).

Definition is_initialized_big_endian (x : Z) : bool :=
  negb (char_at_big_endian x 0 =? 0). (* return *initialized; *)

Definition set_initialized_big_endian (x : Z) : Z :=
  Z.lor (Z.ldiff x (Z.shiftl 255 56)) (Z.shiftl 1 56).  (* *initialized = 1; *)

(** ** Contention

    Entering on [g], thread [tid] has to wait: the word is not initialized,
    its lock field is set and (on Apple) does not hold [tid] itself. *)
Definition contended (t : target) (tid g : Z) : Prop :=
  char_at g 0 = 0 /\ get_lock t g <> 0 /\
  (def_APPLE t = true -> get_lock t g <> lock_cast t tid).

(** A wake-up without error that finds the lock field still set. *)
Definition still_locked (t : target) (k : wake) : Prop :=
  wake_rc k = 0 /\ get_lock t (wake_guard k) <> 0.

(** ** The word [__cxa_guard_acquire] decides on

    [__cxa_guard_acquire] enters a wait loop only outside [__DUETTO__], on
    an entry word whose byte at offset 0 is zero (line 211) and whose lock
    field is set (lines 216 and 235). *)
Definition has_to_wait (t : target) (g : Z) : bool :=
  negb (def_DUETTO t) && (char_at g 0 =? 0) && negb (get_lock t g =? 0).

(** The wake-up that ends the wait: both loops consume the wake-ups in
    order and leave at the first that shows the lock field clear (lines
    221-226 and 235-237).  A failing [pthread_cond_wait] ends the process
    instead, and with no wake-up left the call stays blocked. *)
Fixpoint wait_end (t : target) (ws : list wake) : option Z :=
  match ws with
  | [] => None
  | k :: ws' =>
      if wake_rc k =? 0 then
        if get_lock t (wake_guard k) =? 0 then Some (wake_guard k)
        else wait_end t ws'
      else None
  end.

(** The word on which [__cxa_guard_acquire] decides what to return: the
    entry word [g] when the call does not wait (the test of line 210, read
    again at line 239 with nothing in between), and the word shown by the
    wake-up that ends the wait when it does (the tests of lines 227 and
    239).  When the wait does not end the call decides nothing, and the
    entry word stands in. *)
Definition last_seen (t : target) (e : env) (g : Z) : Z :=
  if has_to_wait t g then
    match wait_end t (wakes e) with
    | Some v => v
    | None => g
    end
  else g.

(** ** The race, with initializers that may fail

    As above, but a thread that has been granted the guard may also find its
    initializer failing: it then calls [__cxa_guard_abort] and is back where
    it started, free to call [__cxa_guard_acquire] again later. *)

Inductive move : Type :=
| Advance (i : nat)    (* thread [i] takes its next step; its initializer succeeds *)
| Throw (i : nat).     (* the initializer of thread [i] fails *)

(** Thread [i] calls [__cxa_guard_abort]. *)
Definition back_out (t : target) (i : nat) (tid : Z) (s : system) : system :=
  match __cxa_guard_abort t (quiet []) (fresh (word s)) with
  | Done _ w => System (guard w) (<[i := (tid, Idle)]> (pool s)) (crashed s)
  | Parked _ => s
  | Fatal msg _ => System (word s) (pool s) (Some msg)
  end.

Definition act (t : target) (m : move) (s : system) : system :=
  match m with
  | Advance i => step t i s
  | Throw i =>
      match crashed s, pool s !! i with
      | None, Some (tid, Returned r) => if r =? 0 then s else back_out t i tid s
      | _, _ => s
      end
  end.

Definition play (t : target) (ms : list move) (s : system) : system :=
  fold_left (fun s m => act t m s) ms s.

(** Where the guard word stands: nobody holds it, thread [k] holds it, or
    thread [k] has released it. *)
Inductive mode : Type := Free | Held (k : nat) | Ready (k : nat).

Definition mode_ok (t : target) (s : system) (m : mode) : Prop :=
  match m with
  | Free => word s = 0
  | Held k => exists tidk, pool s !! k = Some (tidk, Returned 1)
                           /\ word s = granted_word t tidk
  | Ready k => exists tidk, pool s !! k = Some (tidk, Released) /\ word s = 1
  end.

Definition status_ok (t : target) (m : mode) (i : nat) (tid : Z) (st : status) : Prop :=
  match st with
  | Idle => True
  | Waiting g0 ws =>
      def_DUETTO t = false /\ contended t tid g0 /\ Forall (still_locked t) ws
  | Returned r =>
      (r = 1 /\ m = Held i) \/
      (r = 0 /\ (def_DUETTO t = true \/ exists k, m = Ready k))
  | Released => m = Ready i
  end.

Definition inv2 (t : target) (tids : list Z) (s : system) : Prop :=
  crashed s = None /\
  fst <$> pool s = tids /\
  exists m, mode_ok t s m /\
            forall i tid st, pool s !! i = Some (tid, st) -> status_ok t m i tid st.

(** * Properties *)

(** ** The monad *)

Lemma bind_Done {A B} (m : M A) (k : A -> M B) (w w' : world) (b : B) :
  bind m k w = Done b w' ->
  exists a w1, m w = Done a w1 /\ k a w1 = Done b w'.
Proof.
  unfold bind. destruct (m w) as [a w1|msg w1|w1]; intros H; try discriminate.
  exists a, w1. split; [reflexivity | exact H].
Qed.

Lemma ret_Done {A} (a b : A) (w w' : world) :
  ret a w = Done b w' -> a = b /\ w = w'.
Proof. unfold ret. intros H. injection H as -> ->. split; reflexivity. Qed.

(** C9: whenever [__cxa_guard_acquire] returns, on any target, for any
    thread, any answers of the threading library and any guard word, the
    value it returns is 0 or 1. *)
Theorem acquire_returns_0_or_1 (t : target) (tid : Z) (e : env) (w w' : world) (r : Z) :
  __cxa_guard_acquire t tid e w = Done r w' -> r = 0 \/ r = 1.
Proof.
  unfold __cxa_guard_acquire. intros H.
  apply bind_Done in H as (_ & w1 & _ & H).
  apply bind_Done in H as (g & w2 & _ & H).
  apply bind_Done in H as (b & w3 & _ & H).
  apply bind_Done in H as (_ & w4 & _ & H).
  apply ret_Done in H as [<- _].
  destruct b; [right | left]; reflexivity.
Qed.

Lemma acquire_returns_0_or_1_witness :
  __cxa_guard_acquire Generic64 7 (quiet []) (fresh 0)
    = Done 1 (World 256 [256] [(MutexUnlock, 0); (MutexLock, 0)])
  /\ (1 = 0 \/ 1 = 1).
Proof.
  split; [reflexivity |].
  apply (acquire_returns_0_or_1 Generic64 7 (quiet []) (fresh 0)
           (World 256 [256] [(MutexUnlock, 0); (MutexLock, 0)]) 1).
  reflexivity.
Defined.

(** ** The fields of the guard word, bit by bit *)

Lemma char_at_bits (x k j : Z) :
  0 <= k -> 0 <= j ->
  Z.testbit (char_at x k) j = (j <? 8) && Z.testbit x (j + 8 * k).
Proof.
  intros Hk Hj. unfold char_at. change 255 with (Z.ones 8).
  rewrite Z.land_spec, Z.shiftr_spec, Z.testbit_ones_nonneg by lia.
  apply andb_comm.
Qed.

Lemma char_at_agree (x x' k : Z) :
  0 <= k ->
  (forall i, 8 * k <= i < 8 * k + 8 -> Z.testbit x i = Z.testbit x' i) ->
  char_at x k = char_at x' k.
Proof.
  intros Hk H. apply Z.bits_inj'. intros j Hj.
  rewrite !char_at_bits by lia.
  destruct (Z.ltb_spec j 8) as [Hlt|Hge]; [|reflexivity].
  simpl. apply H. lia.
Qed.

(** [get_lock] depends on the bits of [in_lock_field] only. *)
Lemma get_lock_reads_lock_field (t : target) (x x' : Z) :
  (forall i, in_lock_field t i = true -> Z.testbit x i = Z.testbit x' i) ->
  get_lock t x = get_lock t x'.
Proof.
  intros H. destruct t; unfold get_lock, in_lock_field in *; simpl in *.
  - apply Z.bits_inj'. intros j Hj. rewrite !Z.testbit_mod_pow2 by lia.
    destruct (Z.ltb_spec j 32); [simpl | reflexivity]. apply H. lia.
  - apply Z.bits_inj'. intros j Hj.
    rewrite !Z.testbit_mod_pow2, !Z.shiftr_spec by lia.
    destruct (Z.ltb_spec j 32); [simpl | reflexivity]. apply H. lia.
  - rewrite (char_at_agree x x' 1); [reflexivity | lia |].
    intros i Hi. apply H. lia.
  - rewrite (char_at_agree x x' 1); [reflexivity | lia |].
    intros i Hi. apply H. lia.
Qed.

(** [is_initialized] depends on the bits of [in_initialized_field] only. *)
Lemma is_initialized_reads_field (t : target) (x x' : Z) :
  (forall i, in_initialized_field t i = true -> Z.testbit x i = Z.testbit x' i) ->
  is_initialized t x = is_initialized t x'.
Proof.
  intros H.
  assert (Hbyte : narrow_guard t = false -> char_at x 0 = char_at x' 0).
  { intros Hn. apply char_at_agree; [lia |]. intros i Hi. apply H.
    unfold in_initialized_field. rewrite Hn. lia. }
  assert (Hbit : narrow_guard t = true -> Z.land x 1 = Z.land x' 1).
  { intros Hn. apply Z.bits_inj'. intros j Hj. rewrite !Z.land_spec.
    destruct (Z.eq_dec j 0) as [->|Hne].
    - rewrite (H 0); [reflexivity |]. unfold in_initialized_field.
      rewrite Hn. reflexivity.
    - replace (Z.testbit 1 j) with false; [rewrite !andb_false_r; reflexivity |].
      symmetry. change 1 with (Z.ones 1). rewrite Z.testbit_ones_nonneg by lia. lia. }
  unfold is_initialized. destruct (narrow_guard t).
  - rewrite Hbit; reflexivity.
  - rewrite Hbyte; reflexivity.
Qed.

Lemma lock_cast_bool (t : target) (y : Z) :
  wide_lock t = false -> lock_cast t y = 0 \/ lock_cast t y = 1.
Proof.
  intros H. unfold lock_cast. rewrite H. destruct (y =? 0); auto.
Qed.

Lemma lock_cast_range (t : target) (y : Z) : 0 <= lock_cast t y < 2 ^ 32.
Proof.
  unfold lock_cast. destruct (wide_lock t).
  - apply Z.mod_pos_bound. lia.
  - destruct (y =? 0); lia.
Qed.

(** The values the source stores fit the guard type, so no store wraps. *)
Lemma set_lock_fits (t : target) (x y : Z) :
  0 <= set_lock t x y < 2 ^ guard_bits t.
Proof.
  pose proof (lock_cast_range t y) as Hr.
  unfold set_lock, guard_bits. destruct (wide_lock t) eqn:Hw.
  - destruct t; try discriminate; cbn [def_DUETTO narrow_guard def_arm orb].
    + exact Hr.
    + rewrite Z.shiftl_mul_pow2 by lia. lia.
  - destruct (lock_cast_bool t y Hw) as [-> | ->]; destruct t; try discriminate;
      cbn [narrow_guard def_arm def_DUETTO orb];
      rewrite Z.shiftl_mul_pow2 by lia; lia.
Qed.

Lemma lor_1_fits (x n : Z) : 0 < n -> 0 <= x < 2 ^ n -> 0 <= Z.lor x 1 < 2 ^ n.
Proof.
  intros Hn Hx. split; [apply Z.lor_nonneg; lia |].
  destruct (Z.eq_dec x 0) as [->|Hne].
  - change (Z.lor 0 1) with 1. apply Z.pow_gt_1; lia.
  - assert (Hpos : 0 < Z.lor x 1).
    { assert (0 <= Z.lor x 1) by (apply Z.lor_nonneg; lia).
      assert (Z.lor x 1 <> 0) by (rewrite Z.lor_eq_0_iff; lia). lia. }
    apply Z.log2_lt_pow2; [exact Hpos |].
    rewrite Z.log2_lor by lia. change (Z.log2 1) with 0.
    assert (Z.log2 x < n) by (apply Z.log2_lt_pow2; lia).
    pose proof (Z.log2_nonneg x). lia.
Qed.

Lemma set_initialized_fits (t : target) (x : Z) :
  0 <= x < 2 ^ guard_bits t -> 0 <= set_initialized t x < 2 ^ guard_bits t.
Proof.
  unfold set_initialized, guard_bits. destruct (narrow_guard t); intros Hx.
  - apply lor_1_fits; lia.
  - apply lor_1_fits; [lia |].
    change 255 with (Z.ones 8). rewrite Z.ldiff_ones_r by lia.
    rewrite Z.shiftl_mul_pow2, Z.shiftr_div_pow2 by lia.
    change (2 ^ 8) with 256. pose proof (Z.div_mod x 256 ltac:(lia)).
    pose proof (Z.mod_pos_bound x 256 ltac:(lia)). lia.
Qed.

(** After [set_lock] every bit outside the lock field is zero. *)
Lemma set_lock_bits (t : target) (x y i : Z) :
  Z.testbit (set_lock t x y) i && negb (in_lock_field t i) = false.
Proof.
  destruct (Z.ltb_spec i 0) as [Hneg|Hi].
  { rewrite Z.testbit_neg_r by lia. reflexivity. }
  unfold set_lock, in_lock_field.
  destruct (wide_lock t) eqn:Hw.
  - destruct (def_DUETTO t).
    + unfold lock_cast. rewrite Hw, Z.testbit_mod_pow2 by lia.
      destruct (Z.ltb_spec i 32); simpl; [|reflexivity].
      replace (0 <=? i) with true by lia. simpl. apply andb_false_r.
    + rewrite Z.shiftl_spec by lia.
      destruct (Z.ltb_spec i 32) as [Hlt|Hge].
      { rewrite Z.testbit_neg_r by lia. reflexivity. }
      unfold lock_cast. rewrite Hw, Z.testbit_mod_pow2 by lia.
      destruct (Z.ltb_spec (i - 32) 32); simpl; [|reflexivity].
      replace (32 <=? i) with true by lia. replace (i <? 64) with true by lia.
      simpl. apply andb_false_r.
  - rewrite Z.shiftl_spec by lia.
    destruct (Z.ltb_spec i 8) as [Hlt|Hge].
    { rewrite Z.testbit_neg_r by lia. reflexivity. }
    destruct (Z.eq_dec i 8) as [->|Hne]; [apply andb_false_r |].
    replace (Z.testbit (lock_cast t y) (i - 8)) with false; [reflexivity |].
    symmetry. destruct (lock_cast_bool t y Hw) as [-> | ->].
    + apply Z.testbit_0_l.
    + change 1 with (Z.ones 1). rewrite Z.testbit_ones_nonneg by lia. lia.
Qed.

(** Outside [__DUETTO__] the initialized field is not part of the lock
    field, and [set_lock] leaves it zero. *)
Lemma set_lock_char0 (t : target) (x y : Z) :
  def_DUETTO t = false -> char_at (set_lock t x y) 0 = 0.
Proof.
  intros Hd. apply Z.bits_inj'. intros j Hj.
  rewrite char_at_bits, Z.testbit_0_l by lia.
  destruct (Z.ltb_spec j 8) as [Hlt|Hge]; [simpl | reflexivity].
  pose proof (set_lock_bits t x y (j + 8 * 0)) as H.
  replace (in_lock_field t (j + 8 * 0)) with false in H.
  - simpl in H. rewrite andb_true_r in H. exact H.
  - unfold in_lock_field. destruct t; try discriminate; simpl; lia.
Qed.

Lemma set_lock_not_initialized (t : target) (x y : Z) :
  def_DUETTO t = false -> is_initialized t (set_lock t x y) = false.
Proof.
  intros Hd. pose proof (set_lock_char0 t x y Hd) as H0.
  unfold is_initialized. destruct (narrow_guard t).
  - replace (Z.land (set_lock t x y) 1) with 0; [reflexivity |].
    symmetry. apply Z.bits_inj'. intros j Hj.
    rewrite Z.land_spec, Z.testbit_0_l.
    destruct (Z.eq_dec j 0) as [->|Hne].
    + pose proof (char_at_bits (set_lock t x y) 0 0 ltac:(lia) ltac:(lia)) as Hb.
      rewrite H0, Z.testbit_0_l in Hb.
      change (0 + 8 * 0) with 0 in Hb. change (0 <? 8) with true in Hb.
      cbn [andb] in Hb. rewrite <- Hb. reflexivity.
    + change 1 with (Z.ones 1). rewrite Z.testbit_ones_nonneg by lia.
      replace (j <? 1) with false by lia. apply andb_false_r.
  - rewrite H0. reflexivity.
Qed.

Lemma land_1_testbit (a : Z) : negb (Z.land a 1 =? 0) = Z.testbit a 0.
Proof.
  change 1 with (Z.ones 1) at 1. rewrite Z.land_ones by lia.
  change (2 ^ 1) with 2. rewrite <- Z.bit0_mod.
  destruct (Z.testbit a 0); reflexivity.
Qed.

(** C10, as the source has it: for every prior guard-word value [x] and
    every lock value [y], [set_lock(x, y)] rewrites the entire word.  The
    result does not depend on [x], and every bit outside the lock field is
    zero afterwards.  On the targets other than [__DUETTO__] this includes
    the initialized field, so a previously-set initialized bit is not
    preserved.  Under [__DUETTO__] the lock field is the whole word, and the
    initialized bit afterwards is bit 0 of [y]. *)
Theorem set_lock_rewrites_word (t : target) (x y : Z) :
  (forall x', set_lock t x' y = set_lock t x y) /\
  (forall i, Z.testbit (set_lock t x y) i && negb (in_lock_field t i) = false) /\
  is_initialized t (set_lock t x y) = def_DUETTO t && Z.odd y.
Proof.
  split; [reflexivity |]. split; [apply set_lock_bits |].
  destruct (def_DUETTO t) eqn:Hd.
  - destruct t; try discriminate.
    unfold is_initialized, set_lock, lock_cast. simpl.
    rewrite land_1_testbit, Z.testbit_mod_pow2 by lia.
    simpl. apply Z.bit0_odd.
  - apply set_lock_not_initialized. exact Hd.
Qed.

(** C10 fails as stated: under [__DUETTO__], [set_lock(x, true)] on a word
    whose initialized bit is set leaves the initialized bit set. *)
Lemma set_lock_duetto_keeps_initialized :
  in_initialized_field Duetto 0 = true /\
  is_initialized Duetto 1 = true /\
  set_lock Duetto 1 1 = 1 /\
  is_initialized Duetto (set_lock Duetto 1 1) = true.
Proof. repeat split. Qed.

(** ** [__cxa_guard_acquire], path by path *)

(** The fast path: the byte at offset 0 is nonzero. *)
Lemma acquire_initialized (t : target) (tid : Z) (e : env) (w : world) :
  char_at (guard w) 0 <> 0 ->
  __cxa_guard_acquire t tid e w =
    if def_DUETTO t then Done 0 w
    else if lock_rc e =? 0 then
      if unlock_rc e =? 0
      then Done 0 (logged MutexUnlock (unlock_rc e) (logged MutexLock (lock_rc e) w))
      else Fatal "__cxa_guard_acquire failed to release mutex"
             (logged MutexUnlock (unlock_rc e) (logged MutexLock (lock_rc e) w))
    else Fatal "__cxa_guard_acquire failed to acquire mutex"
           (logged MutexLock (lock_rc e) w).
Proof.
  intros H. apply Z.eqb_neq in H.
  unfold __cxa_guard_acquire, ifndef_DUETTO, check, pthread_mutex_lock,
    pthread_mutex_unlock, returned, bind, load, ret, abort_message.
  destruct (def_DUETTO t).
  - rewrite H. reflexivity.
  - destruct (lock_rc e =? 0); [|reflexivity].
    cbn [guard logged]. rewrite H.
    destruct (unlock_rc e =? 0); reflexivity.
Qed.

Lemma wait_while_locked_unlocked (t : target) (ws : list wake) (w : world) :
  get_lock t (guard w) = 0 -> wait_while_locked t ws w = Done tt w.
Proof. intros H. destruct ws; cbn [wait_while_locked]; rewrite H; reflexivity. Qed.

(** The grant: the byte at offset 0 is zero and the lock field is clear
    (under [__DUETTO__] the lock field is not consulted). *)
Lemma acquire_unlocked (t : target) (tid : Z) (e : env) (w : world) :
  char_at (guard w) 0 = 0 ->
  def_DUETTO t = true \/ get_lock t (guard w) = 0 ->
  __cxa_guard_acquire t tid e w =
    if def_DUETTO t then Done 1 (stored (set_lock t (guard w) 1) w)
    else if lock_rc e =? 0 then
      let w' := stored (set_lock t (guard w) (own_lock t tid))
                  (logged MutexLock (lock_rc e) w) in
      if unlock_rc e =? 0
      then Done 1 (logged MutexUnlock (unlock_rc e) w')
      else Fatal "__cxa_guard_acquire failed to release mutex"
             (logged MutexUnlock (unlock_rc e) w')
    else Fatal "__cxa_guard_acquire failed to acquire mutex"
           (logged MutexLock (lock_rc e) w).
Proof.
  intros H0 HL. apply Z.eqb_eq in H0.
  unfold __cxa_guard_acquire, ifndef_DUETTO, check, pthread_mutex_lock,
    pthread_mutex_unlock, returned, bind, load, ret, abort_message, store,
    own_lock.
  destruct t; cbn [def_DUETTO def_APPLE def_arm andb negb];
    destruct HL as [HL|HL]; try discriminate.
  - rewrite H0. cbn [guard stored]. rewrite H0. reflexivity.
  - rewrite H0. cbn [guard stored]. rewrite H0. reflexivity.
  - destruct (lock_rc e =? 0); [|reflexivity].
    cbn [guard logged]. rewrite H0, HL. cbn [Z.eqb negb].
    destruct (unlock_rc e =? 0); reflexivity.
  - destruct (lock_rc e =? 0); [|reflexivity].
    cbn [guard logged]. rewrite H0.
    rewrite wait_while_locked_unlocked by exact HL.
    cbn [guard logged]. rewrite H0.
    destruct (unlock_rc e =? 0); reflexivity.
  - destruct (lock_rc e =? 0); [|reflexivity].
    cbn [guard logged]. rewrite H0.
    rewrite wait_while_locked_unlocked by exact HL.
    cbn [guard logged]. rewrite H0.
    destruct (unlock_rc e =? 0); reflexivity.
Qed.

(** Entered on a locked word, the [while] loop of the boolean encoding and
    the [do ... while] loop of the Apple branch behave alike. *)
Lemma wait_while_locked_locked (t : target) (ws : list wake) (w : world) :
  get_lock t (guard w) <> 0 ->
  wait_while_locked t ws w = wait_do_while_lock t ws w.
Proof.
  revert w. induction ws as [|k ws IH]; intros w H; apply Z.eqb_neq in H.
  - cbn [wait_while_locked wait_do_while_lock]. rewrite H. reflexivity.
  - cbn [wait_while_locked wait_do_while_lock]. rewrite H.
    unfold check, woken, ret, abort_message, bind.
    destruct (wake_rc k =? 0); [|reflexivity].
    destruct (Z.eqb_spec (get_lock t (guard (World (wake_guard k) (writes w)
                ((CondWait, wake_rc k) :: calls w)))) 0) as [E|E].
    + apply wait_while_locked_unlocked. exact E.
    + apply IH. exact E.
Qed.

(** As long as the wake-ups find the word locked, the thread stays blocked,
    and it stores nothing. *)
Lemma do_while_parks (t : target) (G : Z) (n : nat) (w : world) :
  get_lock t G <> 0 -> guard w = G ->
  exists w', wait_do_while_lock t (repeat (Wake 0 G) n) w = Parked w'
             /\ guard w' = G /\ writes w' = writes w.
Proof.
  intros H. apply Z.eqb_neq in H. revert w.
  induction n as [|n IH]; intros w Hg; cbn [repeat wait_do_while_lock].
  - exists w. auto.
  - unfold check, woken, ret, abort_message, bind. cbn [wake_rc wake_guard Z.eqb guard].
    rewrite H.
    destruct (IH (World G (writes w) ((CondWait, 0) :: calls w)) eq_refl)
      as (w' & E & Hg' & Hw').
    exists w'. auto.
Qed.

(** The first wake-up that finds the lock field clear ends the loop. *)
Lemma do_while_exits (t : target) (G R : Z) (n : nat) (w : world) :
  get_lock t G <> 0 -> get_lock t R = 0 ->
  exists w', wait_do_while_lock t (repeat (Wake 0 G) n ++ [Wake 0 R]) w = Done tt w'
             /\ guard w' = R /\ writes w' = writes w.
Proof.
  intros H HR. apply Z.eqb_neq in H. apply Z.eqb_eq in HR. revert w.
  induction n as [|n IH]; intros w; cbn [repeat app wait_do_while_lock];
    unfold check, woken, ret, abort_message, bind;
    cbn [wake_rc wake_guard Z.eqb guard].
  - rewrite HR. eexists. split; [reflexivity |]. split; reflexivity.
  - rewrite H. destruct (IH (World G (writes w) ((CondWait, 0) :: calls w)))
      as (w' & E & Hg & Hw).
    exists w'. split; [exact E |]. split; [exact Hg | exact Hw].
Qed.

Ltac acquire_unfold :=
  unfold __cxa_guard_acquire, ifndef_DUETTO, check, pthread_mutex_lock,
    pthread_mutex_unlock, returned, bind, load, ret, abort_message, store,
    own_lock, quiet, fresh;
  cbn [def_DUETTO def_APPLE def_arm andb negb guard writes calls logged stored
       lock_rc unlock_rc wakes Z.eqb].

(** Entered on a word that is locked by somebody else, and woken only to
    find it still locked, [__cxa_guard_acquire] does not return, and it
    stores nothing. *)
Lemma acquire_locked_parks (t : target) (tid G : Z) (n : nat) :
  def_DUETTO t = false ->
  char_at G 0 = 0 -> get_lock t G <> 0 ->
  (def_APPLE t = true -> get_lock t G <> lock_cast t tid) ->
  exists w', __cxa_guard_acquire t tid (quiet (repeat (Wake 0 G) n)) (fresh G)
             = Parked w'
             /\ guard w' = G /\ writes w' = [].
Proof.
  intros Hd H0 HL Hid.
  pose proof HL as HLb. apply Z.eqb_neq in HLb. apply Z.eqb_eq in H0.
  destruct t; try discriminate; acquire_unfold; rewrite H0.
  - specialize (Hid eq_refl). apply Z.eqb_neq in Hid. rewrite HLb, Hid. cbn [negb].
    destruct (do_while_parks Apple64 G n (logged MutexLock 0 (World G [] [])) HL eq_refl)
      as (w' & -> & Hg & Hw).
    exists w'. auto.
  - rewrite wait_while_locked_locked by exact HL.
    destruct (do_while_parks Arm32 G n (logged MutexLock 0 (World G [] [])) HL eq_refl)
      as (w' & -> & Hg & Hw).
    exists w'. auto.
  - rewrite wait_while_locked_locked by exact HL.
    destruct (do_while_parks Generic64 G n (logged MutexLock 0 (World G [] [])) HL eq_refl)
      as (w' & -> & Hg & Hw).
    exists w'. auto.
Qed.

(** Woken to find the word initialized and the lock field clear, it returns
    0 and leaves the word as it found it. *)
Lemma acquire_locked_then_released (t : target) (tid G R : Z) (n : nat) :
  def_DUETTO t = false ->
  char_at G 0 = 0 -> get_lock t G <> 0 ->
  (def_APPLE t = true -> get_lock t G <> lock_cast t tid) ->
  char_at R 0 <> 0 -> get_lock t R = 0 ->
  exists w', __cxa_guard_acquire t tid (quiet (repeat (Wake 0 G) n ++ [Wake 0 R]))
               (fresh G) = Done 0 w'
             /\ guard w' = R.
Proof.
  intros Hd H0 HL Hid HR0 HRL.
  pose proof HL as HLb. apply Z.eqb_neq in HLb. apply Z.eqb_eq in H0.
  apply Z.eqb_neq in HR0.
  destruct t; try discriminate; acquire_unfold; rewrite H0.
  - specialize (Hid eq_refl). apply Z.eqb_neq in Hid. rewrite HLb, Hid. cbn [negb].
    destruct (do_while_exits Apple64 G R n (logged MutexLock 0 (World G [] [])) HL HRL)
      as (w' & -> & Hg & _).
    unfold is_initialized. cbn [narrow_guard def_arm def_DUETTO orb].
    rewrite Hg, HR0. cbn [negb Z.b2z]. eexists. split; [reflexivity | exact Hg].
  - rewrite wait_while_locked_locked by exact HL.
    destruct (do_while_exits Arm32 G R n (logged MutexLock 0 (World G [] [])) HL HRL)
      as (w' & -> & Hg & _).
    rewrite Hg, HR0. cbn [Z.b2z]. eexists. split; [reflexivity | exact Hg].
  - rewrite wait_while_locked_locked by exact HL.
    destruct (do_while_exits Generic64 G R n (logged MutexLock 0 (World G [] [])) HL HRL)
      as (w' & -> & Hg & _).
    rewrite Hg, HR0. cbn [Z.b2z]. eexists. split; [reflexivity | exact Hg].
Qed.

(** What the wait loops leave behind when they end: a word some wake-up
    (or, for the [while] loop, the entry) has shown, its lock field clear;
    the loops themselves store nothing. *)
Lemma do_while_Done (t : target) (ws : list wake) (w w1 : world) :
  wait_do_while_lock t ws w = Done tt w1 ->
  In (guard w1) (map wake_guard ws) /\ writes w1 = writes w
  /\ get_lock t (guard w1) = 0.
Proof.
  revert w. induction ws as [|k ws IH]; intros w; cbn [wait_do_while_lock].
  - discriminate.
  - unfold check, woken, ret, abort_message, bind.
    destruct (wake_rc k =? 0); [|discriminate].
    cbn [guard].
    destruct (Z.eqb_spec (get_lock t (wake_guard k)) 0) as [E|E].
    + intros H. injection H as <-. cbn [guard writes map].
      split; [left; reflexivity |]. split; [reflexivity | exact E].
    + intros H. apply IH in H as (Hin & Hw & HL). cbn [writes] in Hw.
      split; [right; exact Hin |]. split; [exact Hw | exact HL].
Qed.

Lemma while_Done (t : target) (ws : list wake) (w w1 : world) :
  wait_while_locked t ws w = Done tt w1 ->
  In (guard w1) (guard w :: map wake_guard ws) /\ writes w1 = writes w
  /\ get_lock t (guard w1) = 0.
Proof.
  destruct (Z.eq_dec (get_lock t (guard w)) 0) as [E|E].
  - rewrite wait_while_locked_unlocked by exact E.
    intros H. injection H as <-.
    split; [left; reflexivity |]. split; [reflexivity | exact E].
  - rewrite wait_while_locked_locked by exact E.
    intros H. apply do_while_Done in H as (Hin & Hw & HL).
    split; [right; exact Hin |]. split; [exact Hw | exact HL].
Qed.

Lemma char0_not_initialized (t : target) (g : Z) :
  char_at g 0 = 0 -> is_initialized t g = false.
Proof.
  intros H. unfold is_initialized. destruct (narrow_guard t).
  - rewrite land_1_testbit.
    pose proof (char_at_bits g 0 0 ltac:(lia) ltac:(lia)) as Hb.
    rewrite H, Z.testbit_0_l in Hb.
    change (0 + 8 * 0) with 0 in Hb. change (0 <? 8) with true in Hb.
    cbn [andb] in Hb. rewrite <- Hb. reflexivity.
  - rewrite H. reflexivity.
Qed.

(** Every way [__cxa_guard_acquire] can return.  It has last seen the word
    as [seen] (at entry or at a wake-up).  Either it returns 0 and has
    stored nothing, or it returns 1 having found the byte at offset 0 zero
    and having stored [set_lock(seen, own)] once. *)
Lemma acquire_Done (t : target) (tid : Z) (e : env) (w w' : world) (r : Z) :
  __cxa_guard_acquire t tid e w = Done r w' ->
  exists seen,
    In seen (guard w :: map wake_guard (wakes e)) /\
    ((r = 0 /\ guard w' = seen /\ writes w' = writes w) \/
     (r = 1 /\ char_at seen 0 = 0 /\
      (def_DUETTO t = true \/ get_lock t seen = 0) /\
      guard w' = set_lock t seen (own_lock t tid) /\
      writes w' = set_lock t seen (own_lock t tid) :: writes w)).
Proof.
  destruct (Z.eq_dec (char_at (guard w) 0) 0) as [H0|H0].
  2:{ rewrite acquire_initialized by exact H0.
      intros H. exists (guard w). split; [left; reflexivity |]. left.
      destruct (def_DUETTO t).
      - injection H as <- <-. auto.
      - destruct (lock_rc e =? 0); [|discriminate].
        destruct (unlock_rc e =? 0); [|discriminate].
        injection H as <- <-. auto. }
  assert (Hfree : def_DUETTO t = true \/ get_lock t (guard w) = 0 ->
                  __cxa_guard_acquire t tid e w = Done r w' ->
                  exists seen,
                    In seen (guard w :: map wake_guard (wakes e)) /\
                    ((r = 0 /\ guard w' = seen /\ writes w' = writes w) \/
                     (r = 1 /\ char_at seen 0 = 0 /\
                      (def_DUETTO t = true \/ get_lock t seen = 0) /\
                      guard w' = set_lock t seen (own_lock t tid) /\
                      writes w' = set_lock t seen (own_lock t tid) :: writes w))).
  { intros HL. rewrite acquire_unlocked by assumption.
    intros H. exists (guard w). split; [left; reflexivity |]. right.
    destruct (def_DUETTO t) eqn:Hd.
    - injection H as <- <-. unfold own_lock.
      destruct t; try discriminate. cbn. auto.
    - destruct (lock_rc e =? 0); [|discriminate]. cbn zeta in H.
      destruct (unlock_rc e =? 0); [|discriminate].
      injection H as <- <-. cbn. auto. }
  destruct (def_DUETTO t) eqn:Hd; [apply Hfree; left; reflexivity |].
  destruct (Z.eq_dec (get_lock t (guard w)) 0) as [HL|HL];
    [apply Hfree; right; exact HL |].
  clear Hfree. pose proof HL as HLb.
  apply Z.eqb_neq in HLb. apply Z.eqb_eq in H0.
  destruct t; try discriminate Hd; acquire_unfold;
    (destruct (lock_rc e =? 0); [|discriminate]); cbn [guard logged]; rewrite H0.
  - rewrite HLb. cbn [negb].
    destruct (get_lock Apple64 (guard w) =? lock_cast Apple64 tid); [discriminate |].
    destruct (wait_do_while_lock Apple64 (wakes e) (logged MutexLock (lock_rc e) w))
      as [[] w1|msg w1|w1] eqn:EL; intros H; try discriminate H; revert H.
    apply do_while_Done in EL as (Hin & Hw & HL1). cbn [writes logged] in Hw.
    intros H. exists (guard w1). split; [right; exact Hin |]. revert H.
    unfold is_initialized. cbn [narrow_guard def_arm def_DUETTO orb].
    destruct (Z.eqb_spec (char_at (guard w1) 0) 0) as [E|E]; cbn [negb Z.b2z];
      (destruct (unlock_rc e =? 0); [|discriminate]); intros H; injection H as <- <-.
    + right. cbn. rewrite Hw. auto 6.
    + left. cbn. auto.
  - destruct (wait_while_locked Arm32 (wakes e) (logged MutexLock (lock_rc e) w))
      as [[] w1|msg w1|w1] eqn:EL; intros H; try discriminate H; revert H.
    apply while_Done in EL as (Hin & Hw & HL1). cbn [writes guard logged] in Hw, Hin.
    intros H. exists (guard w1). split; [exact Hin |]. revert H.
    destruct (Z.eqb_spec (char_at (guard w1) 0) 0) as [E|E]; cbn [negb Z.b2z];
      (destruct (unlock_rc e =? 0); [|discriminate]); intros H; injection H as <- <-.
    + right. cbn. rewrite Hw. auto 6.
    + left. cbn. auto.
  - destruct (wait_while_locked Generic64 (wakes e) (logged MutexLock (lock_rc e) w))
      as [[] w1|msg w1|w1] eqn:EL; intros H; try discriminate H; revert H.
    apply while_Done in EL as (Hin & Hw & HL1). cbn [writes guard logged] in Hw, Hin.
    intros H. exists (guard w1). split; [exact Hin |]. revert H.
    destruct (Z.eqb_spec (char_at (guard w1) 0) 0) as [E|E]; cbn [negb Z.b2z];
      (destruct (unlock_rc e =? 0); [|discriminate]); intros H; injection H as <- <-.
    + right. cbn. rewrite Hw. auto 6.
    + left. cbn. auto.
Qed.

(** ** The word [__cxa_guard_acquire] decides on *)

Lemma last_seen_entry (t : target) (e : env) (g : Z) :
  has_to_wait t g = false -> last_seen t e g = g.
Proof. unfold last_seen. intros ->. reflexivity. Qed.

Lemma wait_end_Some (t : target) (ws : list wake) (v : Z) :
  wait_end t ws = Some v ->
  In v (map wake_guard ws) /\ get_lock t v = 0.
Proof.
  induction ws as [|k ws IH]; cbn [wait_end map]; [discriminate |].
  destruct (wake_rc k =? 0); [|discriminate].
  destruct (Z.eqb_spec (get_lock t (wake_guard k)) 0) as [E|E].
  - intros H. injection H as <-. split; [left; reflexivity | exact E].
  - intros H. apply IH in H as [Hin HL]. split; [right; exact Hin | exact HL].
Qed.

(** [wait_end] is the wake-up that follows the longest run of wake-ups
    that find the lock field set. *)
Lemma wait_end_prefix (t : target) (pre rest : list wake) (k : wake) :
  Forall (still_locked t) pre ->
  wake_rc k = 0 -> get_lock t (wake_guard k) = 0 ->
  wait_end t (pre ++ k :: rest) = Some (wake_guard k).
Proof.
  intros Hpre Hk HL. induction Hpre as [|k0 pre [Hrc Hlk] _ IH]; cbn [app wait_end].
  - rewrite Hk. cbn [Z.eqb]. rewrite HL. reflexivity.
  - rewrite Hrc. cbn [Z.eqb]. apply Z.eqb_neq in Hlk. rewrite Hlk. exact IH.
Qed.

Lemma last_seen_In (t : target) (e : env) (g : Z) :
  In (last_seen t e g) (g :: map wake_guard (wakes e)).
Proof.
  unfold last_seen. destruct (has_to_wait t g); [|left; reflexivity].
  destruct (wait_end t (wakes e)) as [v|] eqn:E; [|left; reflexivity].
  right. apply (wait_end_Some t _ _ E).
Qed.

(** The word the [do]-[while] loop leaves in the guard object is the one
    [wait_end] names. *)
Lemma do_while_wait_end (t : target) (ws : list wake) (w w1 : world) :
  wait_do_while_lock t ws w = Done tt w1 ->
  wait_end t ws = Some (guard w1) /\ writes w1 = writes w.
Proof.
  revert w. induction ws as [|k ws IH]; intros w; cbn [wait_do_while_lock wait_end].
  - discriminate.
  - unfold check, woken, ret, abort_message, bind.
    destruct (wake_rc k =? 0); [|discriminate].
    cbn [guard].
    destruct (Z.eqb_spec (get_lock t (wake_guard k)) 0) as [E|E].
    + intros H. injection H as <-. cbn [guard writes]. split; reflexivity.
    + intros H. apply IH in H as (Hend & Hw). cbn [writes] in Hw.
      split; [exact Hend | exact Hw].
Qed.

(** Every way [__cxa_guard_acquire] can return, in terms of the word it
    decides on.  Either that word has a nonzero byte at offset 0, the call
    returns 0 and has stored nothing, or that byte is zero, the call
    returns 1 and has stored [set_lock(seen, own)] once. *)
Lemma acquire_Done_last_seen (t : target) (tid : Z) (e : env) (w w' : world) (r : Z) :
  __cxa_guard_acquire t tid e w = Done r w' ->
  (r = 0 /\ char_at (last_seen t e (guard w)) 0 <> 0 /\
   guard w' = last_seen t e (guard w) /\ writes w' = writes w) \/
  (r = 1 /\ char_at (last_seen t e (guard w)) 0 = 0 /\
   (def_DUETTO t = true \/ get_lock t (last_seen t e (guard w)) = 0) /\
   guard w' = set_lock t (last_seen t e (guard w)) (own_lock t tid) /\
   writes w' = set_lock t (last_seen t e (guard w)) (own_lock t tid) :: writes w).
Proof.
  destruct (Z.eq_dec (char_at (guard w) 0) 0) as [H0|H0].
  2:{ rewrite acquire_initialized by exact H0.
      rewrite last_seen_entry
        by (unfold has_to_wait; apply Z.eqb_neq in H0; rewrite H0;
            destruct (def_DUETTO t); reflexivity).
      intros H. left.
      destruct (def_DUETTO t).
      - injection H as <- <-. auto.
      - destruct (lock_rc e =? 0); [|discriminate].
        destruct (unlock_rc e =? 0); [|discriminate].
        injection H as <- <-. auto. }
  assert (Hfree : def_DUETTO t = true \/ get_lock t (guard w) = 0 ->
                  __cxa_guard_acquire t tid e w = Done r w' ->
                  r = 1 /\ char_at (last_seen t e (guard w)) 0 = 0 /\
                  (def_DUETTO t = true \/ get_lock t (last_seen t e (guard w)) = 0) /\
                  guard w' = set_lock t (last_seen t e (guard w)) (own_lock t tid) /\
                  writes w' = set_lock t (last_seen t e (guard w)) (own_lock t tid)
                                :: writes w).
  { intros HL. rewrite acquire_unlocked by assumption.
    rewrite last_seen_entry.
    2:{ unfold has_to_wait. destruct HL as [-> | ->]; [reflexivity |].
        cbn [Z.eqb negb]. apply andb_false_r. }
    intros H.
    destruct (def_DUETTO t) eqn:Hd.
    - injection H as <- <-. unfold own_lock.
      destruct t; try discriminate. cbn. auto.
    - destruct (lock_rc e =? 0); [|discriminate]. cbn zeta in H.
      destruct (unlock_rc e =? 0); [|discriminate].
      injection H as <- <-. cbn. auto. }
  destruct (def_DUETTO t) eqn:Hd; [right; apply Hfree; [left; reflexivity | assumption] |].
  destruct (Z.eq_dec (get_lock t (guard w)) 0) as [HL|HL];
    [right; apply Hfree; [right; exact HL | assumption] |].
  clear Hfree. pose proof HL as HLb.
  apply Z.eqb_neq in HLb. apply Z.eqb_eq in H0.
  assert (Hseen : forall w1,
            wait_do_while_lock t (wakes e) (logged MutexLock (lock_rc e) w)
              = Done tt w1 ->
            last_seen t e (guard w) = guard w1 /\ writes w1 = writes w /\
            get_lock t (guard w1) = 0).
  { intros w1 EL. apply do_while_wait_end in EL as [Hend Hw].
    unfold last_seen, has_to_wait. rewrite Hd, H0, HLb, Hend.
    split; [reflexivity |]. split; [exact Hw |].
    apply (wait_end_Some t _ _ Hend). }
  revert Hseen. generalize (last_seen t e (guard w)). intros seen Hseen.
  destruct t; try discriminate Hd; acquire_unfold;
    (destruct (lock_rc e =? 0); [|discriminate]); cbn [guard logged]; rewrite H0.
  - rewrite HLb. cbn [negb].
    destruct (get_lock Apple64 (guard w) =? lock_cast Apple64 tid); [discriminate |].
    destruct (wait_do_while_lock Apple64 (wakes e) (logged MutexLock (lock_rc e) w))
      as [[] w1|msg w1|w1] eqn:EL; intros H; try discriminate H; revert H.
    destruct (Hseen w1 eq_refl) as (-> & Hw & HL1).
    unfold is_initialized. cbn [narrow_guard def_arm def_DUETTO orb].
    destruct (Z.eqb_spec (char_at (guard w1) 0) 0) as [E|E]; cbn [negb Z.b2z];
      (destruct (unlock_rc e =? 0); [|discriminate]); intros H; injection H as <- <-.
    + right. cbn. rewrite Hw. auto 6.
    + left. cbn. auto.
  - rewrite wait_while_locked_locked by exact HL.
    destruct (wait_do_while_lock Arm32 (wakes e) (logged MutexLock (lock_rc e) w))
      as [[] w1|msg w1|w1] eqn:EL; intros H; try discriminate H; revert H.
    destruct (Hseen w1 eq_refl) as (-> & Hw & HL1).
    destruct (Z.eqb_spec (char_at (guard w1) 0) 0) as [E|E]; cbn [negb Z.b2z];
      (destruct (unlock_rc e =? 0); [|discriminate]); intros H; injection H as <- <-.
    + right. cbn. rewrite Hw. auto 6.
    + left. cbn. auto.
  - rewrite wait_while_locked_locked by exact HL.
    destruct (wait_do_while_lock Generic64 (wakes e) (logged MutexLock (lock_rc e) w))
      as [[] w1|msg w1|w1] eqn:EL; intros H; try discriminate H; revert H.
    destruct (Hseen w1 eq_refl) as (-> & Hw & HL1).
    destruct (Z.eqb_spec (char_at (guard w1) 0) 0) as [E|E]; cbn [negb Z.b2z];
      (destruct (unlock_rc e =? 0); [|discriminate]); intros H; injection H as <- <-.
    + right. cbn. rewrite Hw. auto 6.
    + left. cbn. auto.
Qed.

(** A call that had to wait and has returned has seen its wait end. *)
Lemma acquire_Done_wait_ended (t : target) (tid : Z) (e : env) (w w' : world) (r : Z) :
  __cxa_guard_acquire t tid e w = Done r w' ->
  has_to_wait t (guard w) = true ->
  wait_end t (wakes e) = Some (last_seen t e (guard w)).
Proof.
  intros H Hwait. apply acquire_Done_last_seen in H. revert H.
  unfold last_seen. rewrite Hwait.
  destruct (wait_end t (wakes e)) as [v|]; [reflexivity |].
  intros H. exfalso. unfold has_to_wait in Hwait.
  apply andb_true_iff in Hwait as [Hwait HL].
  apply andb_true_iff in Hwait as [Hd H0].
  apply negb_true_iff in Hd, HL. apply Z.eqb_eq in H0. apply Z.eqb_neq in HL.
  destruct H as [(_ & Hc & _) | (_ & _ & [Hd'|HL'] & _)]; congruence.
Qed.

(** ** [__cxa_guard_release] and [__cxa_guard_abort] *)

Lemma release_eq (t : target) (e : env) (w : world) :
  __cxa_guard_release t e w =
    if def_DUETTO t then Done tt (stored (set_initialized t 0) (stored 0 w))
    else if lock_rc e =? 0 then
      let w2 := logged MutexUnlock (unlock_rc e)
                  (stored (set_initialized t 0)
                     (stored 0 (logged MutexLock (lock_rc e) w))) in
      if unlock_rc e =? 0 then
        if broadcast_rc e =? 0
        then Done tt (logged CondBroadcast (broadcast_rc e) w2)
        else Fatal "__cxa_guard_release failed to broadcast condition variable"
               (logged CondBroadcast (broadcast_rc e) w2)
      else Fatal "__cxa_guard_release failed to release mutex" w2
    else Fatal "__cxa_guard_release failed to acquire mutex"
           (logged MutexLock (lock_rc e) w).
Proof.
  unfold __cxa_guard_release, ifndef_DUETTO, check, pthread_mutex_lock,
    pthread_mutex_unlock, pthread_cond_broadcast, returned, load, ret,
    abort_message, store, bind.
  destruct (def_DUETTO t); [reflexivity |].
  destruct (lock_rc e =? 0); [|reflexivity]. cbn zeta.
  destruct (unlock_rc e =? 0); [|reflexivity].
  destruct (broadcast_rc e =? 0); reflexivity.
Qed.

Lemma abort_eq (t : target) (e : env) (w : world) :
  __cxa_guard_abort t e w =
    if def_DUETTO t then Done tt (stored 0 w)
    else if lock_rc e =? 0 then
      let w2 := logged MutexUnlock (unlock_rc e)
                  (stored 0 (logged MutexLock (lock_rc e) w)) in
      if unlock_rc e =? 0 then
        if broadcast_rc e =? 0
        then Done tt (logged CondBroadcast (broadcast_rc e) w2)
        else Fatal "__cxa_guard_abort failed to broadcast condition variable"
               (logged CondBroadcast (broadcast_rc e) w2)
      else Fatal "__cxa_guard_abort failed to release mutex" w2
    else Fatal "__cxa_guard_abort failed to acquire mutex"
           (logged MutexLock (lock_rc e) w).
Proof.
  unfold __cxa_guard_abort, ifndef_DUETTO, check, pthread_mutex_lock,
    pthread_mutex_unlock, pthread_cond_broadcast, returned, load, ret,
    abort_message, store, bind.
  destruct (def_DUETTO t); [reflexivity |].
  destruct (lock_rc e =? 0); [|reflexivity]. cbn zeta.
  destruct (unlock_rc e =? 0); [|reflexivity].
  destruct (broadcast_rc e =? 0); reflexivity.
Qed.

(** The word [__cxa_guard_release] leaves is 1 on every target. *)
Lemma set_initialized_0 (t : target) : set_initialized t 0 = 1.
Proof. destruct t; reflexivity. Qed.

Lemma release_Done (t : target) (e : env) (w w1 : world) :
  __cxa_guard_release t e w = Done tt w1 ->
  guard w1 = 1 /\ writes w1 = 1 :: 0 :: writes w.
Proof.
  rewrite release_eq, set_initialized_0.
  destruct (def_DUETTO t).
  - intros H. injection H as <-. split; reflexivity.
  - destruct (lock_rc e =? 0); [|discriminate]. cbn zeta.
    destruct (unlock_rc e =? 0); [|discriminate].
    destruct (broadcast_rc e =? 0); [|discriminate].
    intros H. injection H as <-. split; reflexivity.
Qed.

Lemma abort_Done (t : target) (e : env) (w w1 : world) :
  __cxa_guard_abort t e w = Done tt w1 ->
  guard w1 = 0 /\ writes w1 = 0 :: writes w.
Proof.
  rewrite abort_eq.
  destruct (def_DUETTO t).
  - intros H. injection H as <-. split; reflexivity.
  - destruct (lock_rc e =? 0); [|discriminate]. cbn zeta.
    destruct (unlock_rc e =? 0); [|discriminate].
    destruct (broadcast_rc e =? 0); [|discriminate].
    intros H. injection H as <-. split; reflexivity.
Qed.

(** C5: from the all-zero guard word, on every target and whatever the
    thread identities, [acquire] returns 1, [abort] then puts the word back
    to all-zero, and the next [acquire] returns 1 again (no pthread call
    failing). *)
Theorem retry_after_abort (t : target) (tid1 tid2 : Z) (ws1 ws2 : list wake) :
  exists w1 w2 w3,
    __cxa_guard_acquire t tid1 (quiet ws1) (fresh 0) = Done 1 w1 /\
    __cxa_guard_abort t (quiet []) w1 = Done tt w2 /\
    guard w2 = 0 /\
    __cxa_guard_acquire t tid2 (quiet ws2) w2 = Done 1 w3.
Proof.
  assert (HL : get_lock t 0 = 0) by (destruct t; reflexivity).
  rewrite (acquire_unlocked t tid1 (quiet ws1) (fresh 0) eq_refl (or_intror HL)).
  destruct (def_DUETTO t) eqn:Hd; cbn [quiet lock_rc unlock_rc Z.eqb];
    do 3 eexists; (split; [reflexivity |]);
    rewrite abort_eq, Hd; cbn [quiet lock_rc unlock_rc broadcast_rc Z.eqb];
    (split; [reflexivity |]); (split; [reflexivity |]);
    rewrite acquire_unlocked by (first [exact (or_intror HL) | reflexivity]);
    rewrite Hd; reflexivity.
Qed.

Lemma acquire_each_initialized (t : target) (cs : list (Z * env)) (w1 : world) :
  char_at (guard w1) 0 <> 0 ->
  Forall (fun c => lock_rc (snd c) = 0 /\ unlock_rc (snd c) = 0) cs ->
  exists w2 l,
    acquire_each t cs w1 = Done (map (fun _ => 0) cs) w2 /\
    guard w2 = guard w1 /\ writes w2 = writes w1 /\
    calls w2 = l ++ calls w1 /\ Forall (fun c => fst c <> CondWait) l.
Proof.
  intros H0 Hcs. revert w1 H0.
  induction Hcs as [|[tid e] cs [Hl Hu] _ IH]; intros w1 H0.
  - exists w1, []. cbn. auto.
  - cbn [acquire_each map snd] in *. unfold bind at 1.
    rewrite acquire_initialized by exact H0. rewrite Hl, Hu. cbn [Z.eqb].
    destruct (def_DUETTO t).
    + destruct (IH w1 H0) as (w2 & l & E & Hg & Hw & Hc & Hl').
      unfold bind, ret. rewrite E. exists w2, l. auto.
    + destruct (IH (logged MutexUnlock 0 (logged MutexLock 0 w1)) H0)
        as (w2 & l & E & Hg & Hw & Hc & Hl').
      unfold bind, ret. rewrite E.
      exists w2, (l ++ [(MutexUnlock, 0); (MutexLock, 0)]).
      split; [reflexivity |]. split; [exact Hg |]. split; [exact Hw |].
      split.
      * rewrite Hc, <- app_assoc. reflexivity.
      * apply Forall_app. split; [exact Hl' |].
        repeat constructor; discriminate.
Qed.

(** C2: once [__cxa_guard_release] has returned on a guard word, every
    later call of [__cxa_guard_acquire] on it returns 0, however many calls
    follow and whatever thread makes them, and none of them calls
    [pthread_cond_wait]; the word stays as release left it.  The mutex
    operations of those calls are taken to succeed. *)
Theorem acquire_after_release (t : target) (e : env) (w w1 : world)
    (cs : list (Z * env)) :
  __cxa_guard_release t e w = Done tt w1 ->
  Forall (fun c => lock_rc (snd c) = 0 /\ unlock_rc (snd c) = 0) cs ->
  exists w2 l,
    acquire_each t cs w1 = Done (map (fun _ => 0) cs) w2 /\
    guard w2 = guard w1 /\
    calls w2 = l ++ calls w1 /\ Forall (fun c => fst c <> CondWait) l.
Proof.
  intros Hr Hcs. apply release_Done in Hr as [Hg _].
  destruct (acquire_each_initialized t cs w1) as (w2 & l & E & Hg2 & _ & Hc & Hl).
  - rewrite Hg. discriminate.
  - exact Hcs.
  - exists w2, l. auto.
Qed.

Lemma acquire_after_release_witness :
  exists w2 l,
    acquire_each Generic64 [(11, quiet []); (12, quiet [Wake 0 256])]
      (World 1 [1; 0] [(CondBroadcast, 0); (MutexUnlock, 0); (MutexLock, 0)])
      = Done [0; 0] w2 /\
    guard w2 = 1 /\
    calls w2 = l ++ [(CondBroadcast, 0); (MutexUnlock, 0); (MutexLock, 0)] /\
    Forall (fun c => fst c <> CondWait) l.
Proof.
  apply (acquire_after_release Generic64 (quiet []) (fresh 256)
           (World 1 [1; 0] [(CondBroadcast, 0); (MutexUnlock, 0); (MutexLock, 0)])
           [(11, quiet []); (12, quiet [Wake 0 256])]).
  - reflexivity.
  - repeat constructor.
Defined.

Lemma lock_cast_idem (t : target) (y : Z) : lock_cast t (lock_cast t y) = lock_cast t y.
Proof.
  unfold lock_cast. destruct (wide_lock t).
  - apply Z.mod_mod. lia.
  - destruct (y =? 0); reflexivity.
Qed.

(** Outside [__DUETTO__], [get_lock] reads back what [set_lock] stored. *)
Lemma get_lock_set_lock (t : target) (x y : Z) :
  def_DUETTO t = false -> get_lock t (set_lock t x y) = lock_cast t y.
Proof.
  intros Hd. unfold get_lock, set_lock. destruct (wide_lock t) eqn:Hw.
  - rewrite Hd. rewrite Z.shiftr_shiftl_l by lia. change (32 - 32) with 0.
    rewrite Z.shiftl_0_r. apply Z.mod_small. apply lock_cast_range.
  - destruct (lock_cast_bool t y Hw) as [-> | ->]; reflexivity.
Qed.

Lemma own_lock_thread_id (t : target) (tid : Z) :
  thread_id tid -> lock_cast t (own_lock t tid) = own_lock t tid /\ own_lock t tid <> 0.
Proof.
  intros Htid. unfold own_lock.
  destruct (def_APPLE t && negb (def_arm t)) eqn:Ha.
  - split; [apply lock_cast_idem |].
    destruct t; try discriminate. unfold lock_cast. cbn.
    unfold thread_id in Htid. rewrite Z.mod_small by lia. lia.
  - split; [destruct t; try discriminate; reflexivity | lia].
Qed.

Lemma own_lock_ok (t : target) (tid : Z) :
  (def_APPLE t = true -> thread_id tid) ->
  lock_cast t (own_lock t tid) = own_lock t tid /\ own_lock t tid <> 0.
Proof.
  intros H. destruct (def_APPLE t) eqn:Ha.
  - apply own_lock_thread_id. apply H. reflexivity.
  - unfold own_lock. rewrite Ha. cbn [andb].
    split; [destruct t; try discriminate; reflexivity | lia].
Qed.

(** C6: on Apple, where the lock field holds the initializer's thread
    identity, a thread that has been granted a guard word and calls
    [__cxa_guard_acquire] on it again (before release or abort) terminates
    the process with the deadlock diagnostic as soon as it holds the mutex;
    the call neither waits nor returns. *)
Theorem acquire_self_deadlock (tid : Z) (e0 e : env) (w0 w : world) :
  thread_id tid ->
  __cxa_guard_acquire Apple64 tid e0 w0 = Done 1 w ->
  lock_rc e = 0 ->
  __cxa_guard_acquire Apple64 tid e w
    = Fatal "__cxa_guard_acquire detected deadlock" (logged MutexLock 0 w).
Proof.
  intros Htid Hgrant Hl.
  apply acquire_Done in Hgrant as (seen & _ & [[H _] | (_ & _ & _ & Hg & _)]);
    [discriminate |].
  destruct (own_lock_thread_id Apple64 tid Htid) as [Hc Hne].
  assert (H0 : char_at (guard w) 0 = 0) by (rewrite Hg; apply set_lock_char0; reflexivity).
  assert (HL : get_lock Apple64 (guard w) = own_lock Apple64 tid).
  { rewrite Hg, get_lock_set_lock by reflexivity. exact Hc. }
  acquire_unfold. rewrite Hl. cbn [Z.eqb guard logged].
  apply Z.eqb_eq in H0. rewrite H0, HL.
  unfold own_lock in *. cbn [def_APPLE def_arm andb negb] in *.
  apply Z.eqb_neq in Hne. rewrite Hne, Z.eqb_refl. reflexivity.
Qed.

Lemma acquire_self_deadlock_witness :
  __cxa_guard_acquire Apple64 5 (quiet []) (World 21474836480 [21474836480]
                                           [(MutexUnlock, 0); (MutexLock, 0)])
    = Fatal "__cxa_guard_acquire detected deadlock"
        (logged MutexLock 0 (World 21474836480 [21474836480]
                               [(MutexUnlock, 0); (MutexLock, 0)])).
Proof.
  apply (acquire_self_deadlock 5 (quiet []) (quiet []) (fresh 0)).
  - unfold thread_id. lia.
  - reflexivity.
  - reflexivity.
Defined.





(** C7, as the source has it.  Write [seen] for the word on which
    [__cxa_guard_acquire] decides: the entry word when the call does not
    wait, and otherwise the word shown by the wake-up that ends its wait
    (the first one, in order, that succeeds and finds the lock field
    clear).  Whenever the call returns, then: if it had to wait, its wait
    did end at [seen]; if it returns 0 it has stored nothing and the word is
    [seen]; if it returns 1 its only store is [set_lock(seen, own)], which
    leaves every bit outside the lock field zero.  On every target other
    than [__DUETTO__] the initialized field is the same after the call as in
    [seen].  Under [__DUETTO__] a granted call leaves the word equal to
    1. *)
Theorem acquire_frame (t : target) (tid : Z) (e : env) (w w' : world) (r : Z) :
  __cxa_guard_acquire t tid e w = Done r w' ->
  In (last_seen t e (guard w)) (guard w :: map wake_guard (wakes e)) /\
  (has_to_wait t (guard w) = true ->
   wait_end t (wakes e) = Some (last_seen t e (guard w))) /\
  (r = 0 -> guard w' = last_seen t e (guard w) /\ writes w' = writes w) /\
  (r = 1 -> guard w' = set_lock t (last_seen t e (guard w)) (own_lock t tid) /\
            writes w' = guard w' :: writes w /\
            forall i, Z.testbit (guard w') i && negb (in_lock_field t i) = false) /\
  (def_DUETTO t = false ->
   is_initialized t (guard w') = is_initialized t (last_seen t e (guard w))) /\
  (def_DUETTO t = true -> r = 1 -> guard w' = 1).
Proof.
  intros H. split; [apply last_seen_In |].
  split; [exact (acquire_Done_wait_ended t tid e w w' r H) |].
  apply acquire_Done_last_seen in H.
  destruct H as [(-> & Hc & Hg & Hw) | (-> & H0 & HL & Hg & Hw)].
  - split; [auto |]. split; [discriminate |].
    split; [intros _; rewrite Hg; reflexivity | discriminate].
  - split; [discriminate |].
    split; [intros _; rewrite Hw, Hg; repeat split; apply set_lock_bits |].
    split.
    + intros Hd. rewrite Hg, set_lock_not_initialized by exact Hd.
      symmetry. apply char0_not_initialized. exact H0.
    + intros Hd _. rewrite Hg. destruct t; try discriminate. reflexivity.
Qed.

(** Entered on a word locked by thread 7, thread 5 is woken once to find it
    still locked and once to find it all zero (thread 7 has called abort):
    it decides on 0 and is granted.  Woken instead to find the word 1
    (thread 7 has called release), it decides on 1 and is refused. *)
Lemma acquire_frame_witness :
  (last_seen Apple64 (quiet [Wake 0 30064771072; Wake 0 0; Wake 0 1]) 30064771072 = 0 /\
   In 0 [30064771072; 30064771072; 0; 1] /\
   (has_to_wait Apple64 30064771072 = true ->
    wait_end Apple64 [Wake 0 30064771072; Wake 0 0; Wake 0 1] = Some 0) /\
   (1 = 0 -> 21474836480 = 0 /\ [21474836480] = []) /\
   (1 = 1 -> 21474836480 = set_lock Apple64 0 (own_lock Apple64 5) /\
             [21474836480] = [21474836480] /\
             forall i, Z.testbit 21474836480 i && negb (in_lock_field Apple64 i)
                       = false) /\
   (def_DUETTO Apple64 = false ->
    is_initialized Apple64 21474836480 = is_initialized Apple64 0) /\
   (def_DUETTO Apple64 = true -> 1 = 1 -> 21474836480 = 1)) /\
  (last_seen Apple64 (quiet [Wake 0 30064771072; Wake 0 1]) 30064771072 = 1 /\
   In 1 [30064771072; 30064771072; 1] /\
   (has_to_wait Apple64 30064771072 = true ->
    wait_end Apple64 [Wake 0 30064771072; Wake 0 1] = Some 1) /\
   (0 = 0 -> 1 = 1 /\ @nil Z = []) /\
   (0 = 1 -> 1 = set_lock Apple64 1 (own_lock Apple64 5) /\
             @nil Z = [1] /\
             forall i, Z.testbit 1 i && negb (in_lock_field Apple64 i) = false) /\
   (def_DUETTO Apple64 = false ->
    is_initialized Apple64 1 = is_initialized Apple64 1) /\
   (def_DUETTO Apple64 = true -> 0 = 1 -> 1 = 1)).
Proof.
  split; (split; [reflexivity |]).
  - apply (acquire_frame Apple64 5
             (quiet [Wake 0 30064771072; Wake 0 0; Wake 0 1]) (fresh 30064771072)
             (World 21474836480 [21474836480]
                [(MutexUnlock, 0); (CondWait, 0); (CondWait, 0); (MutexLock, 0)]) 1).
    reflexivity.
  - apply (acquire_frame Apple64 5
             (quiet [Wake 0 30064771072; Wake 0 1]) (fresh 30064771072)
             (World 1 [] [(MutexUnlock, 0); (CondWait, 0); (CondWait, 0); (MutexLock, 0)])
             0).
    reflexivity.
Defined.

(** C7 fails as stated: under [__DUETTO__], [__cxa_guard_acquire] on the
    all-zero word returns 1 and leaves the initialized bit set. *)
Lemma acquire_duetto_sets_initialized :
  __cxa_guard_acquire Duetto 7 (quiet []) (fresh 0) = Done 1 (World 1 [1] []) /\
  is_initialized Duetto 0 = false /\
  is_initialized Duetto 1 = true.
Proof. repeat split. Qed.

(** ** Failing pthread calls *)

Lemma careful_ret (op : entry) {A} (a : A) : careful op (ret a).
Proof. intros w H. exact H. Qed.

Lemma careful_load (op : entry) : careful op load.
Proof. intros w H. exact H. Qed.

Lemma careful_store (op : entry) (v : Z) : careful op (store v).
Proof. intros w H. exact H. Qed.

Lemma careful_abort_message (op : entry) {A} (msg : string) :
  careful op (@abort_message A msg).
Proof.
  intros w H. unfold abort_message, settled. unfold zero_rcs in H.
  destruct (calls w) as [|[p rc] rest]; [exact I |].
  inversion H as [|c l Hc Hrest]; subst. cbn in Hc.
  split; [exact Hrest | intros Hne; contradiction].
Qed.

Lemma careful_bind (op : entry) {A B} (m : M A) (k : A -> M B) :
  careful op m -> (forall a, careful op (k a)) -> careful op (bind m k).
Proof.
  intros Hm Hk w H. unfold bind. specialize (Hm w H).
  destruct (m w) as [a w1|msg w1|w1]; cbn [settled] in *.
  - apply Hk. exact Hm.
  - exact Hm.
  - exact Hm.
Qed.

Lemma careful_check (op : entry) (p : prim) (rc : Z) :
  careful op (check (returned p rc) (diagnostic op p)).
Proof.
  intros w H. unfold check, returned, ret, abort_message, bind.
  destruct (Z.eqb_spec rc 0) as [->|Hne]; cbn [settled logged calls].
  - constructor; [reflexivity | exact H].
  - split; [exact H | reflexivity].
Qed.

Lemma careful_check_woken (k : wake) :
  careful Acquire
    (check (woken k) "__cxa_guard_acquire condition variable wait failed").
Proof.
  intros w H. unfold check, woken, ret, abort_message, bind.
  destruct (Z.eqb_spec (wake_rc k) 0) as [E|Hne]; cbn [settled calls].
  - constructor; [exact E | exact H].
  - split; [exact H | reflexivity].
Qed.

Lemma careful_do_while (t : target) (ws : list wake) :
  careful Acquire (wait_do_while_lock t ws).
Proof.
  induction ws as [|k ws IH]; cbn [wait_do_while_lock].
  - intros w H. exact H.
  - apply (careful_bind Acquire (check (woken k) _)); [apply careful_check_woken |].
    intros _. apply careful_bind; [intros w H; exact H |].
    intros lock. destruct (lock =? 0); [apply careful_ret | exact IH].
Qed.

Lemma careful_while (t : target) (ws : list wake) :
  careful Acquire (wait_while_locked t ws).
Proof.
  intros w H. destruct (Z.eq_dec (get_lock t (guard w)) 0) as [E|E].
  - rewrite wait_while_locked_unlocked by exact E. exact H.
  - rewrite wait_while_locked_locked by exact E. apply careful_do_while. exact H.
Qed.

Ltac careful_step :=
  first
    [ apply careful_ret | apply careful_load | apply careful_store
    | apply careful_abort_message
    | apply careful_while | apply careful_do_while
    | apply (careful_check Acquire MutexLock)
    | apply (careful_check Acquire MutexUnlock)
    | apply (careful_check Release MutexLock)
    | apply (careful_check Release MutexUnlock)
    | apply (careful_check Release CondBroadcast)
    | apply (careful_check Abort MutexLock)
    | apply (careful_check Abort MutexUnlock)
    | apply (careful_check Abort CondBroadcast)
    | apply careful_bind; [|intros ?]
    | match goal with
      | |- careful _ (ifndef_DUETTO _ _) => unfold ifndef_DUETTO
      | |- careful _ (if ?c then _ else _) => destruct c
      | |- careful _ (let _ := _ in _) => cbv zeta
      end ].

Lemma careful_acquire (t : target) (tid : Z) (e : env) :
  careful Acquire (__cxa_guard_acquire t tid e).
Proof. unfold __cxa_guard_acquire. repeat careful_step. Qed.

Lemma careful_release (t : target) (e : env) :
  careful Release (__cxa_guard_release t e).
Proof. unfold __cxa_guard_release. repeat careful_step. Qed.

Lemma careful_abort (t : target) (e : env) :
  careful Abort (__cxa_guard_abort t e).
Proof. unfold __cxa_guard_abort. repeat careful_step. Qed.

Lemma settled_failure (op : entry) {A} (r : result A) (p : prim) (rc : Z) :
  settled op r -> In (p, rc) (calls (world_of r)) -> rc <> 0 ->
  fatal_message r = Some (diagnostic op p).
Proof.
  intros Hs Hin Hne.
  assert (Hz : forall l, Forall (fun c : prim * Z => snd c = 0) l ->
                         In (p, rc) l -> False).
  { intros l Hl Hi. rewrite List.Forall_forall in Hl. apply Hl in Hi. cbn in Hi.
    contradiction. }
  destruct r as [a w|msg w|w]; cbn [settled world_of fatal_message] in *.
  - exfalso. apply (Hz _ Hs Hin).
  - destruct (calls w) as [|[p' rc'] rest]; [destruct Hin |].
    destruct Hs as [Hrest Hmsg]. destruct Hin as [Heq|Hin].
    + injection Heq as -> ->. rewrite Hmsg by exact Hne. reflexivity.
    + exfalso. apply (Hz _ Hrest Hin).
  - exfalso. apply (Hz _ Hs Hin).
Qed.

(** C8: in each of the three entry points, on every target, as soon as a
    mutex or condition-variable call returns nonzero the process is
    terminated through [abort_message] with the diagnostic that names the
    entry point and the failing call; the entry point does not return (no
    value, and so no error code, reaches the caller). *)
Theorem failing_primitive_is_fatal (t : target) (tid : Z) (e : env) (w : world)
    (p : prim) (rc : Z) :
  zero_rcs w -> rc <> 0 ->
  (In (p, rc) (calls (world_of (__cxa_guard_acquire t tid e w))) ->
   fatal_message (__cxa_guard_acquire t tid e w) = Some (diagnostic Acquire p)) /\
  (In (p, rc) (calls (world_of (__cxa_guard_release t e w))) ->
   fatal_message (__cxa_guard_release t e w) = Some (diagnostic Release p)) /\
  (In (p, rc) (calls (world_of (__cxa_guard_abort t e w))) ->
   fatal_message (__cxa_guard_abort t e w) = Some (diagnostic Abort p)).
Proof.
  intros Hw Hne. split; [|split]; intros Hin.
  - apply (settled_failure Acquire _ p rc); [apply careful_acquire; exact Hw | exact Hin | exact Hne].
  - apply (settled_failure Release _ p rc); [apply careful_release; exact Hw | exact Hin | exact Hne].
  - apply (settled_failure Abort _ p rc); [apply careful_abort; exact Hw | exact Hin | exact Hne].
Qed.

Lemma failing_primitive_is_fatal_witness :
  fatal_message (__cxa_guard_acquire Generic64 7 (Env 0 [Wake 22 256] 0 0) (fresh 256))
    = Some "__cxa_guard_acquire condition variable wait failed"
  /\ fatal_message (__cxa_guard_release Generic64 (Env 0 [] 0 22) (fresh 256))
    = Some "__cxa_guard_release failed to broadcast condition variable"
  /\ fatal_message (__cxa_guard_abort Generic64 (Env 0 [] 22 0) (fresh 256))
    = Some "__cxa_guard_abort failed to release mutex".
Proof.
  assert (Hz : zero_rcs (fresh 256)) by constructor.
  assert (Hne : 22 <> 0) by lia.
  split; [|split].
  - apply (proj1 (failing_primitive_is_fatal Generic64 7 (Env 0 [Wake 22 256] 0 0)
                    (fresh 256) CondWait 22 Hz Hne)).
    left. reflexivity.
  - apply (proj1 (proj2 (failing_primitive_is_fatal Generic64 7 (Env 0 [] 0 22)
                           (fresh 256) CondBroadcast 22 Hz Hne))).
    left. reflexivity.
  - apply (proj2 (proj2 (failing_primitive_is_fatal Generic64 7 (Env 0 [] 22 0)
                           (fresh 256) MutexUnlock 22 Hz Hne))).
    left. reflexivity.
Defined.

(** ** The three states *)

Lemma state_of_set_lock (t : target) (x tid : Z) :
  state_of t (set_lock t x (own_lock t tid)) =
    Some (if def_DUETTO t then INITIALIZED
          else if lock_cast t (own_lock t tid) =? 0 then UNINITIALIZED
               else IN_PROGRESS).
Proof.
  destruct (def_DUETTO t) eqn:Hd.
  - destruct t; try discriminate. reflexivity.
  - unfold state_of.
    rewrite set_lock_not_initialized, get_lock_set_lock by exact Hd.
    destruct (Z.eqb_spec (lock_cast t (own_lock t tid)) 0) as [E|E]; cbn [negb].
    + replace (set_lock t x (own_lock t tid)) with 0; [reflexivity |].
      unfold set_lock. rewrite E. destruct (wide_lock t), (def_DUETTO t); reflexivity.
    + reflexivity.
Qed.

(** C3, as the source has it.  Every operation keeps a guard word in one
    of the three states (for acquire: provided the word was in one of them at
    entry and at each wake-up); release leaves it INITIALIZED and abort
    UNINITIALIZED.  After acquire has returned 1 on an all-zero word, on
    every target other than [__DUETTO__] the word is IN_PROGRESS, lock field
    set and initialized field clear, and stays so until release or abort:
    any thread calling acquire meanwhile (on Apple: any other thread) blocks
    and stores nothing.  Under [__DUETTO__] the granted word is 1, which is
    INITIALIZED.  On Apple thread identities are nonzero 32-bit values. *)
Theorem guard_word_states (t : target) (tid : Z) (e : env) (w w' : world) (r : Z) :
  (state_of t (guard w) <> None ->
   Forall (fun k => state_of t (wake_guard k) <> None) (wakes e) ->
   __cxa_guard_acquire t tid e w = Done r w' ->
   state_of t (guard w') <> None) /\
  (__cxa_guard_release t e w = Done tt w' ->
   state_of t (guard w') = Some INITIALIZED) /\
  (__cxa_guard_abort t e w = Done tt w' ->
   state_of t (guard w') = Some UNINITIALIZED) /\
  (guard w = 0 -> (def_APPLE t = true -> thread_id tid) ->
   __cxa_guard_acquire t tid e w = Done r w' ->
   r = 1 /\
   state_of t (guard w')
     = Some (if def_DUETTO t then INITIALIZED else IN_PROGRESS) /\
   (def_DUETTO t = true -> guard w' = 1) /\
   (def_DUETTO t = false ->
    get_lock t (guard w') <> 0 /\ is_initialized t (guard w') = false /\
    forall tid' n, (def_APPLE t = true -> thread_id tid' /\ tid' <> tid) ->
      exists w'',
        __cxa_guard_acquire t tid' (quiet (repeat (Wake 0 (guard w')) n))
          (fresh (guard w')) = Parked w''
        /\ guard w'' = guard w' /\ writes w'' = [])).
Proof.
  split; [|split; [|split]].
  - intros Hs Hws H. apply acquire_Done in H as (seen & Hin & Hcase).
    destruct Hcase as [(_ & -> & _) | (_ & _ & _ & -> & _)].
    + destruct Hin as [<- | Hin]; [exact Hs |].
      rewrite List.Forall_forall in Hws. apply in_map_iff in Hin as (k & <- & Hk).
      apply Hws. exact Hk.
    + rewrite state_of_set_lock. discriminate.
  - intros H. apply release_Done in H as [-> _]. destruct t; reflexivity.
  - intros H. apply abort_Done in H as [-> _]. destruct t; reflexivity.
  - intros Hg Htid H.
    assert (HL : def_DUETTO t = true \/ get_lock t (guard w) = 0).
    { right. rewrite Hg. destruct t; reflexivity. }
    pose proof H as H'. rewrite acquire_unlocked in H' by (try exact HL; rewrite Hg; reflexivity).
    destruct (own_lock_ok t tid Htid) as [Hc Hne].
    assert (Hr : r = 1 /\ guard w' = set_lock t 0 (own_lock t tid)).
    { rewrite Hg in H'. destruct (def_DUETTO t) eqn:Hd.
      - injection H' as <- <-. split; [reflexivity |].
        destruct t; try discriminate. reflexivity.
      - destruct (lock_rc e =? 0); [|discriminate]. cbn zeta in H'.
        destruct (unlock_rc e =? 0); [|discriminate].
        injection H' as <- <-. split; reflexivity. }
    destruct Hr as [-> Hw']. split; [reflexivity |].
    split.
    { rewrite Hw', state_of_set_lock, Hc.
      apply Z.eqb_neq in Hne. rewrite Hne. reflexivity. }
    split.
    { intros Hd. rewrite Hw'. destruct t; try discriminate. reflexivity. }
    intros Hd.
    assert (Hlock : get_lock t (guard w') = own_lock t tid).
    { rewrite Hw', get_lock_set_lock by exact Hd. exact Hc. }
    split; [rewrite Hlock; exact Hne |].
    split; [rewrite Hw'; apply set_lock_not_initialized; exact Hd |].
    intros tid' n Hother.
    apply acquire_locked_parks.
    + exact Hd.
    + rewrite Hw'. apply set_lock_char0. exact Hd.
    + rewrite Hlock. exact Hne.
    + intros Ha. rewrite Hlock. destruct (Hother Ha) as [Htid' Hdiff].
      specialize (Htid Ha). destruct t; try discriminate.
      unfold own_lock, lock_cast. cbn.
      unfold thread_id in *. rewrite !Z.mod_small by lia. lia.
Qed.

Lemma guard_word_states_witness :
  state_of Arm32 256 = Some IN_PROGRESS /\
  exists w'',
    __cxa_guard_acquire Arm32 8 (quiet (repeat (Wake 0 256) 2)) (fresh 256)
      = Parked w''
    /\ guard w'' = 256 /\ writes w'' = [].
Proof.
  assert (Ha : __cxa_guard_acquire Arm32 7 (quiet []) (fresh 0)
               = Done 1 (World 256 [256] [(MutexUnlock, 0); (MutexLock, 0)]))
    by reflexivity.
  assert (Ht7 : def_APPLE Arm32 = true -> thread_id 7) by discriminate.
  assert (Ht8 : def_APPLE Arm32 = true -> thread_id 8 /\ 8 <> 7) by discriminate.
  destruct (proj2 (proj2 (proj2 (guard_word_states Arm32 7 (quiet []) (fresh 0)
              (World 256 [256] [(MutexUnlock, 0); (MutexLock, 0)]) 1)))
              eq_refl Ht7 Ha) as (_ & Hs & _ & Hrest).
  split; [exact Hs |].
  destruct (Hrest eq_refl) as (_ & _ & Hpark).
  exact (Hpark 8 2%nat Ht8).
Defined.

(** C3 fails as stated: under [__DUETTO__], after acquire has returned 1 on
    the all-zero word the initialized field is set, so the word is not in
    the IN_PROGRESS state. *)
Lemma acquire_duetto_not_in_progress :
  __cxa_guard_acquire Duetto 7 (quiet []) (fresh 0) = Done 1 (World 1 [1] []) /\
  is_initialized Duetto 1 = true /\
  state_of Duetto 1 = Some INITIALIZED.
Proof. repeat split. Qed.

(** ** The race *)

Lemma granted_word_locked (t : target) (tid : Z) :
  def_DUETTO t = false -> (def_APPLE t = true -> thread_id tid) ->
  char_at (granted_word t tid) 0 = 0 /\
  get_lock t (granted_word t tid) = own_lock t tid /\
  get_lock t (granted_word t tid) <> 0.
Proof.
  intros Hd Htid. destruct (own_lock_ok t tid Htid) as [Hc Hne].
  unfold granted_word. rewrite get_lock_set_lock, Hc by exact Hd.
  split; [apply set_lock_char0; exact Hd |]. split; [reflexivity | exact Hne].
Qed.

Lemma granted_word_duetto (tid : Z) : granted_word Duetto tid = 1.
Proof. reflexivity. Qed.

Lemma acquire_fresh_zero (t : target) (tid : Z) :
  exists w', __cxa_guard_acquire t tid (quiet []) (fresh 0) = Done 1 w'
             /\ guard w' = granted_word t tid.
Proof.
  assert (HL : get_lock t 0 = 0) by (destruct t; reflexivity).
  rewrite (acquire_unlocked t tid (quiet []) (fresh 0) eq_refl (or_intror HL)).
  destruct (def_DUETTO t) eqn:Hd.
  - eexists. split; [reflexivity |]. destruct t; try discriminate. reflexivity.
  - eexists. split; reflexivity.
Qed.

Lemma acquire_fresh_one (t : target) (tid : Z) :
  exists w', __cxa_guard_acquire t tid (quiet []) (fresh 1) = Done 0 w'
             /\ guard w' = 1.
Proof.
  rewrite acquire_initialized by discriminate.
  destruct (def_DUETTO t); eexists; split; reflexivity.
Qed.

Lemma release_fresh (t : target) (g : Z) :
  exists w', __cxa_guard_release t (quiet []) (fresh g) = Done tt w'
             /\ guard w' = 1.
Proof.
  rewrite release_eq, set_initialized_0.
  destruct (def_DUETTO t); eexists; split; reflexivity.
Qed.

Lemma pool_ids (tids : list Z) (l : list (Z * status)) (i : nat) (tid : Z) (st : status) :
  fst <$> l = tids -> l !! i = Some (tid, st) -> tids !! i = Some tid.
Proof. intros <- H. rewrite list_lookup_fmap, H. reflexivity. Qed.

Lemma pool_insert_ids (l : list (Z * status)) (i : nat) (tid : Z) (st st' : status) :
  l !! i = Some (tid, st) -> fst <$> <[i := (tid, st')]> l = fst <$> l.
Proof.
  intros H. rewrite list_fmap_insert. apply list_insert_id.
  rewrite list_lookup_fmap, H. reflexivity.
Qed.

Lemma bystander_release (t : target) (G : Z) (p : Z * status) :
  bystander t G false p -> bystander t G true p.
Proof.
  intros [H | [H | [[H | H] H']]].
  - left. exact H.
  - right. left. exact H.
  - right. right. auto.
  - discriminate.
Qed.

Lemma settle_Done (t : target) (i : nat) (tid g0 : Z) (ws : list wake)
    (s : system) (r : Z) (w : world) :
  __cxa_guard_acquire t tid (quiet ws) (fresh g0) = Done r w ->
  settle t i tid g0 ws s
    = System (guard w) (<[i := (tid, Returned r)]> (pool s)) (crashed s).
Proof. intros H. unfold settle. rewrite H. reflexivity. Qed.

Lemma settle_Parked (t : target) (i : nat) (tid g0 : Z) (ws : list wake)
    (s : system) (w : world) :
  __cxa_guard_acquire t tid (quiet ws) (fresh g0) = Parked w ->
  settle t i tid g0 ws s
    = System (word s) (<[i := (tid, Waiting g0 ws)]> (pool s)) (crashed s).
Proof. intros H. unfold settle. rewrite H. reflexivity. Qed.

(** Replacing the entry of a bystander keeps the initializer in place. *)
Lemma phase_insert (t : target) (s : system) (rel : bool) (k i : nat)
    (tid tidk : Z) (st st' stk : status) (g : Z) :
  phase t s rel k -> i <> k -> g = word s ->
  pool s !! i = Some (tid, st) ->
  pool s !! k = Some (tidk, stk) ->
  bystander t (granted_word t tidk) rel (tid, st') ->
  phase t (System g (<[i := (tid, st')]> (pool s)) (crashed s)) rel k.
Proof.
  intros (tidk' & Hk & Hw & Hby) Hik -> Hi Hk' Hst.
  rewrite Hk in Hk'. injection Hk' as -> _.
  exists tidk. cbn [pool word]. split; [|split].
  - rewrite list_lookup_insert_ne by exact Hik. exact Hk.
  - exact Hw.
  - intros j p Hjk Hj. destruct (decide (j = i)) as [->|Hji].
    + rewrite list_lookup_insert_eq in Hj by (eapply lookup_lt_Some; exact Hi).
      injection Hj as <-. exact Hst.
    + rewrite list_lookup_insert_ne in Hj by auto. apply (Hby j); assumption.
Qed.

Lemma holder_identity (t : target) (tids : list Z) (l : list (Z * status))
    (k : nat) (tidk : Z) (stk : status) :
  identities_ok t tids -> fst <$> l = tids -> l !! k = Some (tidk, stk) ->
  def_APPLE t = true -> thread_id tidk.
Proof.
  intros Hids Hf Hk Ha. destruct (Hids Ha) as [_ Hall].
  rewrite Forall_lookup in Hall. apply (Hall k). eapply pool_ids; eassumption.
Qed.

(** On Apple the initializer's identity in the lock field differs from the
    identity of any other thread of the pool. *)
Lemma other_identity (t : target) (tids : list Z) (l : list (Z * status))
    (i k : nat) (tid tidk : Z) (st stk : status) :
  identities_ok t tids -> fst <$> l = tids ->
  l !! i = Some (tid, st) -> l !! k = Some (tidk, stk) -> i <> k ->
  def_APPLE t = true -> get_lock t (granted_word t tidk) <> lock_cast t tid.
Proof.
  intros Hids Hf Hi Hk Hik Ha. destruct (Hids Ha) as [Hnd Hall].
  assert (Hti : tids !! i = Some tid) by (eapply pool_ids; eassumption).
  assert (Htk : tids !! k = Some tidk) by (eapply pool_ids; eassumption).
  rewrite Forall_lookup in Hall.
  pose proof (Hall i tid Hti) as Hi'. pose proof (Hall k tidk Htk) as Hk'.
  assert (tid <> tidk).
  { intros ->. apply Hik. eapply NoDup_lookup; eassumption. }
  destruct t; try discriminate.
  destruct (granted_word_locked Apple64 tidk eq_refl (fun _ => Hk'))
    as (_ & -> & _).
  unfold thread_id in *. unfold own_lock, lock_cast.
  cbn [def_APPLE def_arm def_DUETTO wide_lock andb orb negb].
  rewrite !Z.mod_small by lia. lia.
Qed.

Lemma step_inv (t : target) (tids : list Z) (i : nat) (s : system) :
  identities_ok t tids -> inv t tids s -> inv t tids (step t i s).
Proof.
  intros Hids (Hc & Hf & Hph). unfold step. rewrite Hc.
  destruct (pool s !! i) as [[tid st]|] eqn:Hi; [|repeat split; assumption].
  assert (Hlt : (i < length (pool s))%nat) by (eapply lookup_lt_Some; exact Hi).
  destruct Hph as [[Hw0 Hidle] | (rel & k & Hphase)].
  - (* nobody has been granted the word yet *)
    assert (st = Idle) as ->.
    { rewrite Forall_lookup in Hidle. apply (Hidle i (tid, st) Hi). }
    rewrite Hw0. destruct (acquire_fresh_zero t tid) as (w' & E & Hg).
    rewrite (settle_Done _ _ _ _ _ _ _ _ E).
    split; [exact Hc |]. split; [cbn [pool]; rewrite (pool_insert_ids _ _ _ _ _ Hi); exact Hf |].
    right. exists false, i, tid. cbn [pool word]. split; [|split].
    + apply list_lookup_insert_eq. exact Hlt.
    + exact Hg.
    + intros j p Hji Hj. rewrite list_lookup_insert_ne in Hj by auto.
      left. rewrite Forall_lookup in Hidle. apply (Hidle j p Hj).
  - pose proof Hphase as (tidk & Hk & Hw & Hby).
    assert (Htidk : def_APPLE t = true -> thread_id tidk)
      by (eapply holder_identity; eassumption).
    destruct (decide (i = k)) as [->|Hik].
    + (* the initializer *)
      rewrite Hk in Hi. injection Hi as <- <-.
      destruct rel; [repeat split; [assumption | assumption | right; eauto] |].
      cbn [Z.eqb]. unfold finish.
      destruct (release_fresh t (word s)) as (w' & -> & Hg).
      split; [exact Hc |]. split; [cbn [pool]; rewrite (pool_insert_ids _ _ _ _ _ Hk); exact Hf |].
      right. exists true, k, tidk. cbn [pool word]. split; [|split].
      * apply list_lookup_insert_eq. exact Hlt.
      * exact Hg.
      * intros j p Hjk Hj. rewrite list_lookup_insert_ne in Hj by auto.
        apply bystander_release. apply (Hby j); assumption.
    + (* a bystander *)
      assert (Hother : def_APPLE t = true ->
                       get_lock t (granted_word t tidk) <> lock_cast t tid)
        by (eapply other_identity; eassumption).
      destruct (Hby i (tid, st) Hik Hi) as [HI | [[Hd [n HW]] | [Hcond HR]]];
        cbn [snd] in *; subst st.
      * (* it calls acquire now *)
        destruct rel.
        { rewrite Hw. destruct (acquire_fresh_one t tid) as (w' & E & Hg).
          rewrite (settle_Done _ _ _ _ _ _ _ _ E).
          split; [exact Hc |]. split; [cbn [pool]; rewrite (pool_insert_ids _ _ _ _ _ Hi); exact Hf |].
          right. exists true, k.
          apply (phase_insert t s true k i tid tidk Idle _ Released); auto.
          - rewrite Hg, Hw. reflexivity.
          - right. right. auto. }
        destruct (def_DUETTO t) eqn:Hd.
        { assert (Hw1 : word s = 1).
          { rewrite Hw. destruct t; try discriminate. reflexivity. }
          rewrite Hw1. destruct (acquire_fresh_one t tid) as (w' & E & Hg).
          rewrite (settle_Done _ _ _ _ _ _ _ _ E).
          split; [exact Hc |]. split; [cbn [pool]; rewrite (pool_insert_ids _ _ _ _ _ Hi); exact Hf |].
          right. exists false, k.
          apply (phase_insert t s false k i tid tidk Idle _ (Returned 1)); auto.
          - rewrite Hg, Hw1. reflexivity.
          - right. right. auto. }
        destruct (granted_word_locked t tidk Hd Htidk) as (H0 & _ & HL).
        rewrite Hw.
        destruct (acquire_locked_parks t tid (granted_word t tidk) 0 Hd H0 HL Hother)
          as (w' & E & _).
        cbn [repeat] in E. rewrite (settle_Parked _ _ _ _ _ _ _ E).
        split; [exact Hc |]. split; [cbn [pool]; rewrite (pool_insert_ids _ _ _ _ _ Hi); exact Hf |].
        right. exists false, k.
        apply (phase_insert t s false k i tid tidk Idle _ (Returned 1)); auto.
        right. left. split; [exact Hd |]. exists 0%nat. reflexivity.
      * (* it is woken *)
        destruct (granted_word_locked t tidk Hd Htidk) as (H0 & _ & HL).
        destruct rel.
        { rewrite Hw.
          destruct (acquire_locked_then_released t tid (granted_word t tidk) 1 n
                      Hd H0 HL Hother) as (w' & E & Hg).
          { discriminate. }
          { destruct t; try discriminate; reflexivity. }
          rewrite (settle_Done _ _ _ _ _ _ _ _ E).
          split; [exact Hc |]. split; [cbn [pool]; rewrite (pool_insert_ids _ _ _ _ _ Hi); exact Hf |].
          right. exists true, k.
          apply (phase_insert t s true k i tid tidk
                   (Waiting (granted_word t tidk) (repeat (Wake 0 (granted_word t tidk)) n))
                   _ Released);
            auto.
          - rewrite Hg, Hw. reflexivity.
          - right. right. auto. }
        rewrite Hw. rewrite <- repeat_cons.
        destruct (acquire_locked_parks t tid (granted_word t tidk) (S n) Hd H0 HL Hother)
          as (w' & E & _).
        cbn [repeat] in E. rewrite (settle_Parked _ _ _ _ _ _ _ E).
        split; [exact Hc |]. split; [cbn [pool]; rewrite (pool_insert_ids _ _ _ _ _ Hi); exact Hf |].
        right. exists false, k.
        apply (phase_insert t s false k i tid tidk
                 (Waiting (granted_word t tidk) (repeat (Wake 0 (granted_word t tidk)) n))
                 _ (Returned 1));
          auto.
        right. left. split; [exact Hd |]. exists (S n). reflexivity.
      * (* it has returned 0 already *)
        cbn [Z.eqb]. split; [exact Hc |]. split; [exact Hf |]. right. eauto.
Qed.

Lemma inv_start (t : target) (tids : list Z) : inv t tids (start tids).
Proof.
  unfold inv, start. cbn [crashed pool word]. split; [reflexivity |]. split.
  - induction tids as [|a l IH]; [reflexivity |]. cbn. f_equal. exact IH.
  - left. split; [reflexivity |].
    induction tids as [|a l IH]; constructor; [reflexivity | exact IH].
Qed.

Lemma run_inv (t : target) (tids : list Z) (sched : list nat) (s : system) :
  identities_ok t tids -> inv t tids s -> inv t tids (run t sched s).
Proof.
  intros Hids. revert s. induction sched as [|i sched IH]; intros s Hs.
  - exact Hs.
  - cbn [run fold_left]. apply IH. apply step_inv; assumption.
Qed.

Lemma inv_length (t : target) (tids : list Z) (s : system) :
  inv t tids s -> length (pool s) = length tids.
Proof. intros (_ & <- & _). rewrite length_fmap. reflexivity. Qed.

(** An entry [Released] or [Returned 1] can only be the initializer's. *)
Lemma inv_phase_of_entry (t : target) (tids : list Z) (s : system) (k : nat)
    (tidk : Z) (rel : bool) :
  inv t tids s ->
  pool s !! k = Some (tidk, if rel then Released else Returned 1) ->
  phase t s rel k.
Proof.
  intros (_ & _ & [[_ Hidle] | (rel' & k' & Hph)]) Hk.
  - rewrite Forall_lookup in Hidle. specialize (Hidle k _ Hk).
    destruct rel; discriminate.
  - destruct (decide (k = k')) as [<-|Hne].
    + pose proof Hph as (tidk' & Hk' & _). rewrite Hk in Hk'.
      assert (rel = rel') as <- by (destruct rel, rel'; congruence).
      exact Hph.
    + destruct Hph as (tidk' & _ & _ & Hby).
      destruct (Hby k _ Hne Hk) as [H | [[_ [n H]] | [_ H]]]; cbn [snd] in H;
        destruct rel; discriminate.
Qed.

Lemma step_first (t : target) (s : system) (i : nat) (tid : Z) :
  crashed s = None -> word s = 0 -> pool s !! i = Some (tid, Idle) ->
  pool (step t i s) !! i = Some (tid, Returned 1).
Proof.
  intros Hc Hw Hi. unfold step. rewrite Hc, Hi, Hw.
  destruct (acquire_fresh_zero t tid) as (w' & E & _).
  rewrite (settle_Done _ _ _ _ _ _ _ _ E). cbn [pool].
  apply list_lookup_insert_eq. eapply lookup_lt_Some; exact Hi.
Qed.

Lemma step_holder (t : target) (s : system) (k : nat) (tidk : Z) :
  crashed s = None -> pool s !! k = Some (tidk, Returned 1) ->
  pool (step t k s) !! k = Some (tidk, Released).
Proof.
  intros Hc Hk. unfold step. rewrite Hc, Hk. cbn [Z.eqb]. unfold finish.
  destruct (release_fresh t (word s)) as (w' & -> & _). cbn [pool].
  apply list_lookup_insert_eq. eapply lookup_lt_Some; exact Hk.
Qed.

(** Once the initializer has released the word, a step of thread [i] brings
    thread [i] through and undoes nothing. *)
Lemma step_released (t : target) (tids : list Z) (s : system) (k i : nat) :
  identities_ok t tids -> inv t tids s -> phase t s true k ->
  phase t (step t i s) true k /\
  ((i < length (pool s))%nat -> done_at (step t i s) i) /\
  (forall j, done_at s j -> done_at (step t i s) j).
Proof.
  intros Hids Hinv Hph. pose proof Hinv as (Hc & Hf & _).
  pose proof Hph as (tidk & Hk & Hw & Hby). cbn in Hw.
  unfold step. rewrite Hc.
  destruct (pool s !! i) as [[tid st]|] eqn:Hi.
  2:{ split; [exact Hph |]. split; [|auto].
      intros Hlt. apply lookup_ge_None in Hi. lia. }
  assert (Hnew : forall g,
             g = 1 -> st <> Returned 0 -> i <> k ->
             phase t (System g (<[i := (tid, Returned 0)]> (pool s)) (crashed s)) true k /\
             ((i < length (pool s))%nat ->
              done_at (System g (<[i := (tid, Returned 0)]> (pool s)) (crashed s)) i) /\
             (forall j, done_at s j ->
              done_at (System g (<[i := (tid, Returned 0)]> (pool s)) (crashed s)) j)).
  { intros g -> Hst Hik. split; [|split].
    - apply (phase_insert t s true k i tid tidk st _ Released); auto.
      right. right. auto.
    - intros Hlt. exists (tid, Returned 0). cbn [pool].
      split; [apply list_lookup_insert_eq; exact Hlt | reflexivity].
    - intros j (p & Hj & Hp). exists p. cbn [pool]. split; [|exact Hp].
      rewrite list_lookup_insert_ne; [exact Hj |].
      intros ->. rewrite Hi in Hj. injection Hj as <-.
      destruct (Hby j (tid, st) Hik Hi) as [H | [[_ [n H]] | [_ H]]];
        cbn [snd] in H; subst st; cbn in Hp; try discriminate.
      apply Hst. reflexivity. }
  destruct (decide (i = k)) as [->|Hik].
  { rewrite Hk in Hi. injection Hi as <- <-.
    split; [exact Hph |]. split; [|auto].
    intros _. exists (tidk, Released). auto. }
  assert (Htidk : def_APPLE t = true -> thread_id tidk)
    by (eapply holder_identity; eassumption).
  assert (Hother : def_APPLE t = true ->
                   get_lock t (granted_word t tidk) <> lock_cast t tid)
    by (eapply other_identity; eassumption).
  destruct (Hby i (tid, st) Hik Hi) as [HI | [[Hd [n HW]] | [_ HR]]];
    cbn [snd] in *; subst st.
  - rewrite Hw. destruct (acquire_fresh_one t tid) as (w' & E & Hg).
    rewrite (settle_Done _ _ _ _ _ _ _ _ E). apply Hnew; auto; discriminate.
  - destruct (granted_word_locked t tidk Hd Htidk) as (H0 & _ & HL).
    rewrite Hw.
    destruct (acquire_locked_then_released t tid (granted_word t tidk) 1 n
                Hd H0 HL Hother) as (w' & E & Hg).
    { discriminate. }
    { destruct t; try discriminate; reflexivity. }
    rewrite (settle_Done _ _ _ _ _ _ _ _ E). apply Hnew; auto; discriminate.
  - cbn [Z.eqb]. split; [exact Hph |]. split; [|auto].
    intros _. exists (tid, Returned 0). auto.
Qed.

Lemma run_released (t : target) (tids : list Z) (k : nat) (l : list nat) (s : system) :
  identities_ok t tids -> inv t tids s -> phase t s true k ->
  (forall i, In i l -> (i < length tids)%nat -> done_at (run t l s) i) /\
  (forall j, done_at s j -> done_at (run t l s) j).
Proof.
  intros Hids. revert s. induction l as [|i l IH]; intros s Hinv Hph.
  - split; [intros i [] | auto].
  - cbn [run fold_left].
    destruct (step_released t tids s k i Hids Hinv Hph) as (Hph' & Hi & Hmono).
    destruct (IH (step t i s) (step_inv t tids i s Hids Hinv) Hph') as [Hl Hkeep].
    split.
    + intros j [<- | Hj] Hlt.
      * apply Hkeep. apply Hi. rewrite (inv_length t tids s Hinv). exact Hlt.
      * apply Hl; assumption.
    + intros j Hj. apply Hkeep. apply Hmono. exact Hj.
Qed.

(** After the release one round over all the threads brings every one of
    them through. *)
Lemma round_finishes (t : target) (tids : list Z) (k : nat) (s : system) :
  identities_ok t tids -> inv t tids s -> phase t s true k ->
  all_done (run t (seq 0 (length tids)) s).
Proof.
  intros Hids Hinv Hph.
  destruct (run_released t tids k (seq 0 (length tids)) s Hids Hinv Hph) as [Hall _].
  pose proof (run_inv t tids (seq 0 (length tids)) s Hids Hinv) as Hinv'.
  unfold all_done. rewrite Forall_lookup. intros i p Hi.
  assert (Hlt : (i < length tids)%nat).
  { rewrite <- (inv_length t tids _ Hinv'). eapply lookup_lt_Some; exact Hi. }
  destruct (Hall i) as (p' & Hi' & Hp'); [apply in_seq; lia | exact Hlt |].
  rewrite Hi in Hi'. injection Hi' as <-. exact Hp'.
Qed.

(** From every state of the race some schedule brings all threads through. *)
Lemma race_completes (t : target) (tids : list Z) (s : system) :
  identities_ok t tids -> tids <> [] -> inv t tids s ->
  exists more, all_done (run t more s).
Proof.
  intros Hids Hne Hinv.
  assert (Hrel : forall s k, inv t tids s -> phase t s false k ->
                             exists more, all_done (run t more s)).
  { intros s0 k Hinv0 Hph0. pose proof Hph0 as (tidk & Hk & _).
    pose proof Hinv0 as (Hc & _).
    pose proof (step_holder t s0 k tidk Hc Hk) as Hk'.
    pose proof (step_inv t tids k s0 Hids Hinv0) as Hinv1.
    exists (k :: seq 0 (length tids)). cbn [run fold_left].
    apply (round_finishes t tids k); [exact Hids | exact Hinv1 |].
    apply (inv_phase_of_entry t tids _ k tidk true Hinv1 Hk'). }
  pose proof Hinv as (Hc & Hf & [[Hw Hidle] | ([|] & k & Hph)]).
  - destruct (pool s) as [|[tid st] l] eqn:Hp.
    { cbn in Hf. congruence. }
    assert (H0 : pool s !! 0%nat = Some (tid, Idle)).
    { rewrite Hp. inversion Hidle as [|? ? Hst _]; subst. cbn in Hst. subst st.
      reflexivity. }
    pose proof (step_first t s 0 tid Hc Hw H0) as H1.
    pose proof (step_inv t tids 0 s Hids Hinv) as Hinv1.
    destruct (Hrel (step t 0 s) 0%nat Hinv1
                (inv_phase_of_entry t tids _ 0 tid false Hinv1 H1)) as [more Hmore].
    exists (0%nat :: more). exact Hmore.
  - exists (seq 0 (length tids)). apply (round_finishes t tids k); assumption.
  - apply (Hrel s k); assumption.
Qed.

(** ** Counting the threads *)

Lemma filter_none (f : Z * status -> bool) (l : list (Z * status)) :
  (forall i q, l !! i = Some q -> f q = false) ->
  filter (fun p => f p = true) l = [].
Proof.
  induction l as [|a l IH]; intros H; [reflexivity |].
  rewrite filter_cons_False.
  - apply IH. intros i q Hi. apply (H (S i)). exact Hi.
  - rewrite (H 0%nat a eq_refl). discriminate.
Qed.

Lemma filter_all (f : Z * status -> bool) (l : list (Z * status)) :
  (forall i q, l !! i = Some q -> f q = true) ->
  filter (fun p => f p = true) l = l.
Proof.
  induction l as [|a l IH]; intros H; [reflexivity |].
  rewrite filter_cons_True by (apply (H 0%nat a eq_refl)).
  f_equal. apply IH. intros i q Hi. apply (H (S i)). exact Hi.
Qed.

Lemma count_one (f : Z * status -> bool) (l : list (Z * status)) (k : nat)
    (p : Z * status) :
  l !! k = Some p -> f p = true ->
  (forall i q, i <> k -> l !! i = Some q -> f q = false) ->
  length (filter (fun p => f p = true) l) = 1%nat.
Proof.
  revert k. induction l as [|a l IH]; intros k Hk Hp H; [discriminate |].
  destruct k as [|k].
  - injection Hk as ->. rewrite filter_cons_True by exact Hp.
    rewrite filter_none; [reflexivity |].
    intros i q Hi. apply (H (S i)); [lia | exact Hi].
  - rewrite filter_cons_False.
    + apply (IH k); [exact Hk | exact Hp |].
      intros i q Hik Hi. apply (H (S i)); [lia | exact Hi].
    + rewrite (H 0%nat a); [discriminate | lia | reflexivity].
Qed.

Lemma count_all_but_one (f : Z * status -> bool) (l : list (Z * status)) (k : nat)
    (p : Z * status) :
  l !! k = Some p -> f p = false ->
  (forall i q, i <> k -> l !! i = Some q -> f q = true) ->
  length (filter (fun p => f p = true) l) = (length l - 1)%nat.
Proof.
  revert k. induction l as [|a l IH]; intros k Hk Hp H; [discriminate |].
  destruct k as [|k].
  - injection Hk as ->. rewrite filter_cons_False by (rewrite Hp; discriminate).
    rewrite filter_all; [cbn; lia |].
    intros i q Hi. apply (H (S i)); [lia | exact Hi].
  - rewrite filter_cons_True by (apply (H 0%nat a); [lia | reflexivity]).
    cbn [length]. rewrite (IH k); [| exact Hk | exact Hp |].
    + apply lookup_lt_Some in Hk. cbn [length] in Hk. lia.
    + intros i q Hik Hi. apply (H (S i)); [lia | exact Hi].
Qed.

(** C1: [tids] threads (at least one; on Apple with distinct, nonzero
    identities) race for a zero-initialized guard word, each calling
    [__cxa_guard_acquire] once, the thread that is granted the word calling
    [__cxa_guard_release].  Whatever the interleaving [sched]: the process
    is not terminated, at most one call has returned 1, the initialized
    field is set from the release on, and the race can be run to its end.
    Once every thread is through, exactly one call has returned 1, the other
    N-1 have returned 0, and the initialized field of the word is set. *)
Theorem exactly_one_initializer (t : target) (tids : list Z) (sched : list nat) :
  identities_ok t tids -> tids <> [] ->
  let s := run t sched (start tids) in
  crashed s = None /\
  (count granted s <= 1)%nat /\
  (forall i tid, pool s !! i = Some (tid, Released) ->
                 is_initialized t (word s) = true) /\
  (all_done s ->
   count granted s = 1%nat /\
   count refused s = (length tids - 1)%nat /\
   is_initialized t (word s) = true) /\
  (exists more, all_done (run t more s)).
Proof.
  intros Hids Hne s.
  assert (Hinv : inv t tids s) by (apply run_inv; [exact Hids | apply inv_start]).
  pose proof Hinv as (Hc & Hf & Hph).
  split; [exact Hc |].
  assert (Hrel : forall i tid, pool s !! i = Some (tid, Released) ->
                               is_initialized t (word s) = true).
  { intros i tid Hi.
    destruct (inv_phase_of_entry t tids s i tid true Hinv Hi) as (_ & _ & Hw & _).
    rewrite Hw. destruct t; reflexivity. }
  assert (Hcount : (count granted s <= 1)%nat /\
                   (all_done s ->
                    count granted s = 1%nat /\
                    count refused s = (length tids - 1)%nat /\
                    is_initialized t (word s) = true)).
  { unfold count, all_done. destruct Hph as [[Hw Hidle] | (rel & k & tidk & Hk & Hw & Hby)].
    - rewrite Forall_lookup in Hidle. split.
      + rewrite filter_none; [cbn; lia |].
        intros i [tid st] Hi. specialize (Hidle i _ Hi). cbn in Hidle. subst st.
        reflexivity.
      + intros Hdone. exfalso. rewrite Forall_lookup in Hdone.
        destruct (pool s) as [|[tid st] l] eqn:Hp; [cbn in Hf; congruence |].
        specialize (Hidle 0%nat _ eq_refl). specialize (Hdone 0%nat _ eq_refl).
        cbn in Hidle, Hdone. subst st. discriminate.
    - assert (Hothers : forall i q, i <> k -> pool s !! i = Some q -> granted q = false).
      { intros i [tid st] Hik Hi.
        destruct (Hby i _ Hik Hi) as [H | [[_ [n H]] | [_ H]]]; cbn [snd] in H;
          subst st; reflexivity. }
      assert (Hone : length (filter (fun p => granted p = true) (pool s)) = 1%nat).
      { apply (count_one granted _ k _ Hk); [destruct rel; reflexivity | exact Hothers]. }
      split; [rewrite Hone; lia |].
      intros Hdone. rewrite Forall_lookup in Hdone.
      split; [exact Hone |].
      destruct rel; [|specialize (Hdone k _ Hk); discriminate].
      split.
      + rewrite <- (inv_length t tids s Hinv).
        apply (count_all_but_one refused _ k _ Hk); [reflexivity |].
        intros i [tid st] Hik Hi. specialize (Hdone i _ Hi).
        destruct (Hby i _ Hik Hi) as [H | [[_ [n H]] | [_ H]]]; cbn [snd] in H;
          subst st; try discriminate. reflexivity.
      + rewrite Hw. destruct t; reflexivity. }
  destruct Hcount as [Hle Hfin].
  split; [exact Hle |]. split; [exact Hrel |]. split; [exact Hfin |].
  apply (race_completes t tids); assumption.
Qed.

Lemma exactly_one_initializer_witness :
  count granted (run Apple64 [2; 1; 2; 0; 1; 2; 0; 2]%nat (start [11; 12; 13])) = 1%nat /\
  count refused (run Apple64 [2; 1; 2; 0; 1; 2; 0; 2]%nat (start [11; 12; 13])) = 2%nat.
Proof.
  assert (Hids : identities_ok Apple64 [11; 12; 13]).
  { intros _. split.
    - repeat (apply NoDup_cons_2; [rewrite ?elem_of_cons, elem_of_nil; lia |]).
      apply NoDup_nil_2.
    - repeat constructor; unfold thread_id; lia. }
  assert (Hne : [11; 12; 13] <> []) by discriminate.
  destruct (exactly_one_initializer Apple64 [11; 12; 13] [2; 1; 2; 0; 1; 2; 0; 2]%nat
              Hids Hne) as (_ & _ & _ & H & _).
  destruct H as (H1 & H2 & _).
  - repeat constructor.
  - split; [exact H1 | exact H2].
Defined.

(** * Further properties of the source *)

(** ** The accessors *)

(** X1: on every target [get_lock] reads back the lock value [set_lock] has
    stored, converted to [lock_type], whatever the word held before; and what
    [get_lock] returns is a [lock_type] value, so storing it again loses
    nothing. *)
Theorem lock_round_trip (t : target) (x y z : Z) :
  get_lock t (set_lock t x y) = lock_cast t y /\
  get_lock t (set_lock t x (get_lock t z)) = get_lock t z.
Proof.
  assert (Hrt : forall v, get_lock t (set_lock t x v) = lock_cast t v).
  { intros v. destruct (def_DUETTO t) eqn:Hd.
    - destruct t; try discriminate. unfold get_lock, set_lock, lock_cast. cbn.
      apply Z.mod_mod. lia.
    - apply get_lock_set_lock. exact Hd. }
  split; [apply Hrt |]. rewrite Hrt.
  unfold lock_cast, get_lock. destruct (wide_lock t).
  - destruct (def_DUETTO t); apply Z.mod_mod; lia.
  - destruct (char_at z 1 =? 0); reflexivity.
Qed.

(** X2: [set_initialized] sets the initialized field and changes no bit
    outside it: afterwards bit 0 is set, the other bits of the field (on the
    64-bit targets, where the field is a byte) are clear, and every other bit
    is as before.  It is idempotent, and outside [__DUETTO__] it leaves what
    [get_lock] reads unchanged. *)
Theorem set_initialized_frame (t : target) (x : Z) :
  is_initialized t (set_initialized t x) = true /\
  (forall i,
     Z.testbit (set_initialized t x) i
       = if in_initialized_field t i then i =? 0 else Z.testbit x i) /\
  set_initialized t (set_initialized t x) = set_initialized t x /\
  get_lock t (set_initialized t x)
    = if def_DUETTO t then Z.lor x 1 mod 2 ^ 32 else get_lock t x.
Proof.
  assert (Hone : forall i, 0 <= i -> Z.testbit 1 i = (i =? 0)).
  { intros i Hi. change 1 with (Z.ones 1). rewrite Z.testbit_ones_nonneg by lia.
    destruct (Z.eqb_spec i 0); lia. }
  assert (Hbits : forall i,
            Z.testbit (set_initialized t x) i
              = if in_initialized_field t i then i =? 0 else Z.testbit x i).
  { intros i. destruct (Z.ltb_spec i 0) as [Hneg|Hi].
    { rewrite !Z.testbit_neg_r by lia. unfold in_initialized_field.
      destruct (narrow_guard t); [replace (i =? 0) with false by lia |
                                  replace (0 <=? i) with false by lia];
        reflexivity. }
    unfold set_initialized, in_initialized_field.
    destruct (narrow_guard t).
    - rewrite Z.lor_spec, Hone by lia.
      destruct (Z.eqb_spec i 0); [apply orb_true_r | apply orb_false_r].
    - rewrite Z.lor_spec, Z.ldiff_spec, Hone by lia.
      change 255 with (Z.ones 8). rewrite Z.testbit_ones_nonneg by lia.
      replace (0 <=? i) with true by lia. cbn [andb].
      destruct (Z.ltb_spec i 8); cbn [negb].
      + rewrite andb_false_r. reflexivity.
      + rewrite andb_true_r. replace (i =? 0) with false by lia. apply orb_false_r. }
  assert (Hinit : is_initialized t (set_initialized t x) = true).
  { unfold is_initialized. destruct (narrow_guard t) eqn:Hn.
    - rewrite land_1_testbit, Hbits by lia. unfold in_initialized_field.
      rewrite Hn. reflexivity.
    - replace (char_at (set_initialized t x) 0) with 1; [reflexivity |].
      symmetry. apply Z.bits_inj'. intros j Hj.
      rewrite char_at_bits, Hbits, Hone by lia. unfold in_initialized_field.
      rewrite Hn. replace (0 <=? j + 8 * 0) with true by lia.
      replace (j + 8 * 0 <? 8) with (j <? 8) by lia.
      replace (j + 8 * 0 =? 0) with (j =? 0) by lia.
      destruct (Z.ltb_spec j 8); cbn [andb]; [reflexivity | lia]. }
  split; [exact Hinit |]. split; [exact Hbits |]. split.
  - unfold set_initialized. destruct (narrow_guard t);
      apply Z.bits_inj'; intros i Hi;
      rewrite ?Z.lor_spec, ?Z.ldiff_spec, ?Z.lor_spec, ?Z.ldiff_spec;
      destruct (Z.testbit x i), (Z.testbit 255 i), (Z.testbit 1 i); reflexivity.
  - destruct (def_DUETTO t) eqn:Hd.
    + destruct t; try discriminate. reflexivity.
    + apply get_lock_reads_lock_field. intros i Hi.
      assert (0 <= i) by (unfold in_lock_field in Hi; destruct t; cbn in Hi; lia).
      rewrite Hbits by lia.
      replace (in_initialized_field t i) with false; [reflexivity |].
      unfold in_lock_field, in_initialized_field in *.
      destruct t; try discriminate; cbn in *; lia.
Qed.

(** X3: on a big-endian Apple target the lock accessors round-trip, and the
    lock (the low half of the word) and the initialized byte (the byte at
    address offset 0, the most significant one) do not overlap: [set_lock]
    leaves the word uninitialized, [set_initialized] sets the initialized
    byte and leaves the lock as it was. *)
Theorem big_endian_lock_accessors (x y : Z) :
  get_lock_big_endian (set_lock_big_endian x y) = y mod 2 ^ 32 /\
  is_initialized_big_endian (set_lock_big_endian x y) = false /\
  get_lock_big_endian (set_initialized_big_endian x) = get_lock_big_endian x /\
  is_initialized_big_endian (set_initialized_big_endian x) = true.
Proof.
  unfold get_lock_big_endian, set_lock_big_endian, is_initialized_big_endian,
    set_initialized_big_endian, char_at_big_endian. change (7 - 0) with 7.
  split; [apply Z.mod_mod; lia |]. split; [|split].
  - replace (char_at (y mod 2 ^ 32) 7) with 0; [reflexivity |].
    symmetry. apply Z.bits_inj'. intros j Hj.
    rewrite char_at_bits, Z.testbit_mod_pow2, Z.testbit_0_l by lia.
    replace (j + 8 * 7 <? 32) with false by lia. apply andb_false_r.
  - apply Z.bits_inj'. intros j Hj. rewrite !Z.testbit_mod_pow2 by lia.
    destruct (Z.ltb_spec j 32); [cbn [andb] | reflexivity].
    rewrite Z.lor_spec, Z.ldiff_spec, !Z.shiftl_spec by lia.
    rewrite !(Z.testbit_neg_r _ (j - 56)) by lia.
    cbn [negb]. rewrite andb_true_r. apply orb_false_r.
  - replace (char_at (Z.lor (Z.ldiff x (Z.shiftl 255 56)) (Z.shiftl 1 56)) 7) with 1;
      [reflexivity |].
    symmetry. apply Z.bits_inj'. intros j Hj.
    rewrite char_at_bits, Z.lor_spec, Z.ldiff_spec, !Z.shiftl_spec by lia.
    replace (j + 8 * 7 - 56) with j by lia.
    change 255 with (Z.ones 8). rewrite Z.testbit_ones_nonneg by lia.
    destruct (Z.ltb_spec j 8); cbn [andb negb].
    + rewrite andb_false_r. reflexivity.
    + change 1 with (Z.ones 1). rewrite Z.testbit_ones_nonneg by lia. lia.
Qed.

(** ** Waiting, for any sequence of wake-ups *)

Lemma repeat_snoc_app {A} (a : A) (n : nat) (l : list A) :
  repeat a n ++ a :: l = repeat a (S n) ++ l.
Proof.
  cbn [repeat]. rewrite (repeat_cons n a). rewrite <- app_assoc. reflexivity.
Qed.

Lemma do_while_waits (t : target) (ws : list wake) (w : world) :
  Forall (still_locked t) ws ->
  exists w', wait_do_while_lock t ws w = Parked w'
             /\ writes w' = writes w
             /\ calls w' = repeat (CondWait, 0) (length ws) ++ calls w.
Proof.
  intros H. revert w. induction H as [|k ws [Hrc HL] _ IH]; intros w.
  - exists w. auto.
  - cbn [wait_do_while_lock length]. unfold check, woken, ret, abort_message, bind.
    rewrite Hrc. cbn [Z.eqb guard]. apply Z.eqb_neq in HL. rewrite HL.
    destruct (IH (World (wake_guard k) (writes w) ((CondWait, 0) :: calls w)))
      as (w' & E & Hw & Hc).
    exists w'. split; [exact E |]. split; [exact Hw |].
    rewrite Hc. cbn [calls]. apply repeat_snoc_app.
Qed.

Lemma do_while_leaves (t : target) (ws rest : list wake) (k : wake) (w : world) :
  Forall (still_locked t) ws ->
  wake_rc k = 0 -> get_lock t (wake_guard k) = 0 ->
  exists w', wait_do_while_lock t (ws ++ k :: rest) w = Done tt w'
             /\ guard w' = wake_guard k /\ writes w' = writes w
             /\ calls w' = repeat (CondWait, 0) (S (length ws)) ++ calls w.
Proof.
  intros H Hk HkL. revert w. induction H as [|k0 ws [Hrc HL] _ IH]; intros w.
  - cbn [app wait_do_while_lock length]. unfold check, woken, ret, abort_message, bind.
    rewrite Hk. cbn [Z.eqb guard]. rewrite HkL. cbn [Z.eqb].
    eexists. repeat split.
  - cbn [app wait_do_while_lock length]. unfold check, woken, ret, abort_message, bind.
    rewrite Hrc. cbn [Z.eqb guard]. apply Z.eqb_neq in HL. rewrite HL.
    destruct (IH (World (wake_guard k0) (writes w) ((CondWait, 0) :: calls w)))
      as (w' & E & Hg & Hw & Hc).
    exists w'. split; [exact E |]. split; [exact Hg |]. split; [exact Hw |].
    rewrite Hc. cbn [calls]. apply repeat_snoc_app.
Qed.

Lemma acquire_contended_waits (t : target) (tid : Z) (ws : list wake) (w : world) :
  def_DUETTO t = false -> contended t tid (guard w) ->
  Forall (still_locked t) ws ->
  exists w', __cxa_guard_acquire t tid (quiet ws) w = Parked w'
             /\ writes w' = writes w
             /\ calls w' = repeat (CondWait, 0) (length ws)
                             ++ (MutexLock, 0) :: calls w.
Proof.
  intros Hd (H0 & HL & Hid) Hws.
  pose proof HL as HLb. apply Z.eqb_neq in HLb. apply Z.eqb_eq in H0.
  destruct (do_while_waits t ws (logged MutexLock 0 w) Hws) as (w' & E & Hw & Hc).
  exists w'. split; [|split; [exact Hw | exact Hc]].
  destruct t; try discriminate; acquire_unfold; rewrite H0.
  - specialize (Hid eq_refl). apply Z.eqb_neq in Hid. rewrite HLb, Hid. cbn [negb].
    rewrite E. reflexivity.
  - rewrite wait_while_locked_locked by exact HL. rewrite E. reflexivity.
  - rewrite wait_while_locked_locked by exact HL. rewrite E. reflexivity.
Qed.

Lemma acquire_contended_leaves (t : target) (tid : Z) (ws rest : list wake)
    (k : wake) (w : world) :
  def_DUETTO t = false -> contended t tid (guard w) ->
  Forall (still_locked t) ws ->
  wake_rc k = 0 -> get_lock t (wake_guard k) = 0 ->
  exists w',
    __cxa_guard_acquire t tid (quiet (ws ++ k :: rest)) w
      = Done (Z.b2z (char_at (wake_guard k) 0 =? 0)) w' /\
    guard w' = (if char_at (wake_guard k) 0 =? 0
                then set_lock t (wake_guard k) (own_lock t tid)
                else wake_guard k) /\
    writes w' = (if char_at (wake_guard k) 0 =? 0
                 then [set_lock t (wake_guard k) (own_lock t tid)] else [])
                ++ writes w /\
    calls w' = (MutexUnlock, 0) :: repeat (CondWait, 0) (S (length ws))
                 ++ (MutexLock, 0) :: calls w.
Proof.
  intros Hd (H0 & HL & Hid) Hws Hk HkL.
  pose proof HL as HLb. apply Z.eqb_neq in HLb. apply Z.eqb_eq in H0.
  destruct (do_while_leaves t ws rest k (logged MutexLock 0 w) Hws Hk HkL)
    as (w' & E & Hg & Hw & Hc).
  cbn [writes calls logged] in Hw, Hc.
  destruct t; try discriminate; acquire_unfold; rewrite H0.
  - specialize (Hid eq_refl). apply Z.eqb_neq in Hid. rewrite HLb, Hid. cbn [negb].
    rewrite E. unfold is_initialized. cbn [narrow_guard def_arm def_DUETTO orb].
    rewrite Hg, negb_involutive.
    destruct (char_at (wake_guard k) 0 =? 0); eexists;
      (split; [reflexivity |]); cbn [guard writes calls logged stored app];
      rewrite ?Hw, ?Hc; auto.
  - rewrite wait_while_locked_locked by exact HL. rewrite E, Hg.
    destruct (char_at (wake_guard k) 0 =? 0); eexists;
      (split; [reflexivity |]); cbn [guard writes calls logged stored app];
      rewrite ?Hw, ?Hc; auto.
  - rewrite wait_while_locked_locked by exact HL. rewrite E, Hg.
    destruct (char_at (wake_guard k) 0 =? 0); eexists;
      (split; [reflexivity |]); cbn [guard writes calls logged stored app];
      rewrite ?Hw, ?Hc; auto.
Qed.

(** ** What [__cxa_guard_acquire] decides on *)

(** X4: [__cxa_guard_acquire] grants only on a word with the initialized
    field clear and the lock field clear (under [__DUETTO__] the lock field
    is not consulted), and that word is the one it last saw under the
    mutex: on every target, when a call returns 1, the word it decided on
    (the entry word if the call did not wait, otherwise the word shown by
    the wake-up that ended its wait) is such a word, and a call that had to
    wait did see its wait end at that word. *)
Theorem grant_only_when_free (t : target) (tid : Z) (e : env) (w w' : world) :
  __cxa_guard_acquire t tid e w = Done 1 w' ->
  is_initialized t (last_seen t e (guard w)) = false /\
  (def_DUETTO t = true \/ get_lock t (last_seen t e (guard w)) = 0) /\
  (has_to_wait t (guard w) = false -> last_seen t e (guard w) = guard w) /\
  (has_to_wait t (guard w) = true ->
   wait_end t (wakes e) = Some (last_seen t e (guard w))).
Proof.
  intros H.
  pose proof (acquire_Done_wait_ended t tid e w w' 1 H) as Hend.
  apply acquire_Done_last_seen in H as [[H _] | (_ & H0 & HL & _)];
    [discriminate |].
  split; [apply char0_not_initialized; exact H0 |].
  split; [exact HL |].
  split; [apply last_seen_entry | exact Hend].
Qed.

(** Entered on a locked word and woken first to the initialized word 257
    with the lock still set, then to the all-zero word, the call is granted
    on the all-zero word; the later wake-up to 1 is not consulted. *)
Lemma grant_only_when_free_witness :
  last_seen Generic64 (quiet [Wake 0 257; Wake 0 0; Wake 0 1]) 256 = 0 /\
  is_initialized Generic64 0 = false /\
  (def_DUETTO Generic64 = true \/ get_lock Generic64 0 = 0) /\
  (has_to_wait Generic64 256 = false -> 0 = 256) /\
  (has_to_wait Generic64 256 = true ->
   wait_end Generic64 [Wake 0 257; Wake 0 0; Wake 0 1] = Some 0).
Proof.
  split; [reflexivity |].
  apply (grant_only_when_free Generic64 7 (quiet [Wake 0 257; Wake 0 0; Wake 0 1])
           (fresh 256)
           (World 256 [256]
              [(MutexUnlock, 0); (CondWait, 0); (CondWait, 0); (MutexLock, 0)])).
  reflexivity.
Defined.

(** X5: a word whose initialized field is set is refused at once, whatever
    its lock field holds and whoever calls: with the mutex operations
    succeeding, [__cxa_guard_acquire] returns 0 without storing, without
    waiting and without the deadlock check, having only locked and unlocked
    the mutex (nothing at all under [__DUETTO__]). *)
Theorem initialized_word_is_refused (t : target) (tid : Z) (e : env) (w : world) :
  is_initialized t (guard w) = true ->
  lock_rc e = 0 -> unlock_rc e = 0 ->
  __cxa_guard_acquire t tid e w
    = Done 0 (if def_DUETTO t then w
              else logged MutexUnlock 0 (logged MutexLock 0 w)).
Proof.
  intros Hi Hl Hu.
  assert (H0 : char_at (guard w) 0 <> 0).
  { intros H. apply (char0_not_initialized t) in H. congruence. }
  rewrite acquire_initialized by exact H0. rewrite Hl, Hu.
  destruct (def_DUETTO t); reflexivity.
Qed.

Lemma initialized_word_is_refused_witness :
  __cxa_guard_acquire Apple64 5 (quiet []) (fresh 21474836481)
    = Done 0 (logged MutexUnlock 0 (logged MutexLock 0 (fresh 21474836481))).
Proof.
  apply (initialized_word_is_refused Apple64 5 (quiet []) (fresh 21474836481));
    reflexivity.
Defined.

(** X6: [__cxa_guard_abort] takes no notice of what the guard word holds:
    on every target and from any word, initialized ones included, it stores
    0 once, and the next [__cxa_guard_acquire] by any thread is granted (no
    pthread call failing). *)
Theorem abort_resets_any_word (t : target) (tid : Z) (ws : list wake) (w : world) :
  exists w1 w2,
    __cxa_guard_abort t (quiet []) w = Done tt w1 /\
    guard w1 = 0 /\ writes w1 = 0 :: writes w /\
    __cxa_guard_acquire t tid (quiet ws) w1 = Done 1 w2 /\
    guard w2 = granted_word t tid.
Proof.
  assert (HL : get_lock t 0 = 0) by (destruct t; reflexivity).
  rewrite abort_eq.
  destruct (def_DUETTO t) eqn:Hd; cbn [quiet lock_rc unlock_rc broadcast_rc Z.eqb];
    do 2 eexists; (split; [reflexivity |]); (split; [reflexivity |]);
    (split; [reflexivity |]);
    rewrite acquire_unlocked by (first [exact (or_intror HL) | reflexivity]);
    rewrite Hd; cbn [quiet lock_rc unlock_rc Z.eqb]; split; try reflexivity.
  destruct t; try discriminate. reflexivity.
Qed.

(** X7: a thread that entered [__cxa_guard_acquire] on a word locked by
    somebody else (outside [__DUETTO__]) stays blocked, storing nothing, as
    long as its wake-ups find the lock field set, whatever else the word
    holds.  The first wake-up that finds the lock field clear decides: if
    the byte at offset 0 is nonzero the call returns 0 and leaves the word;
    if it is zero (the initializer called abort) the call returns 1 and
    stores its own lock value.  Later wake-ups are not consulted. *)
Theorem waiter_outcome (t : target) (tid : Z) (ws rest : list wake) (k : wake)
    (w : world) :
  def_DUETTO t = false -> contended t tid (guard w) ->
  Forall (still_locked t) ws ->
  wake_rc k = 0 -> get_lock t (wake_guard k) = 0 ->
  (exists w', __cxa_guard_acquire t tid (quiet ws) w = Parked w'
              /\ writes w' = writes w) /\
  (exists w',
     __cxa_guard_acquire t tid (quiet (ws ++ k :: rest)) w
       = Done (if char_at (wake_guard k) 0 =? 0 then 1 else 0) w' /\
     guard w' = (if char_at (wake_guard k) 0 =? 0
                 then set_lock t (wake_guard k) (own_lock t tid)
                 else wake_guard k) /\
     writes w' = (if char_at (wake_guard k) 0 =? 0
                  then [set_lock t (wake_guard k) (own_lock t tid)] else [])
                 ++ writes w).
Proof.
  intros Hd Hc Hws Hk HkL. split.
  - destruct (acquire_contended_waits t tid ws w Hd Hc Hws) as (w' & E & Hw & _).
    exists w'. auto.
  - destruct (acquire_contended_leaves t tid ws rest k w Hd Hc Hws Hk HkL)
      as (w' & E & Hg & Hw & _).
    exists w'. split; [|auto]. rewrite E.
    destruct (char_at (wake_guard k) 0 =? 0); reflexivity.
Qed.

Lemma waiter_outcome_witness :
  (exists w', __cxa_guard_acquire Apple64 5 (quiet [Wake 0 30064771072])
                (fresh 25769803776) = Parked w'
              /\ writes w' = []) /\
  (exists w',
     __cxa_guard_acquire Apple64 5
       (quiet ([Wake 0 30064771072] ++ Wake 0 0 :: [Wake 0 1]))
       (fresh 25769803776)
       = Done (if char_at 0 0 =? 0 then 1 else 0) w' /\
     guard w' = (if char_at 0 0 =? 0
                 then set_lock Apple64 0 (own_lock Apple64 5) else 0) /\
     writes w' = (if char_at 0 0 =? 0
                  then [set_lock Apple64 0 (own_lock Apple64 5)] else [])
                 ++ []).
Proof.
  apply (waiter_outcome Apple64 5 [Wake 0 30064771072] [Wake 0 1] (Wake 0 0)
           (fresh 25769803776)).
  - reflexivity.
  - repeat split; cbn; discriminate.
  - repeat constructor. cbn. discriminate.
  - reflexivity.
  - reflexivity.
Defined.

(** ** Re-entrant calls *)

Lemma acquire_each_duetto_refused (cs : list (Z * env)) (w : world) :
  char_at (guard w) 0 <> 0 ->
  acquire_each Duetto cs w = Done (map (fun _ => 0) cs) w.
Proof.
  intros H0. induction cs as [|[tid e] cs IH]; [reflexivity |].
  cbn [acquire_each map]. unfold bind at 1.
  rewrite acquire_initialized by exact H0. cbn [def_DUETTO].
  unfold bind, ret. rewrite IH. reflexivity.
Qed.

Lemma duetto_quiet (tid : Z) (e : env) (w : world) :
  exists r w', __cxa_guard_acquire Duetto tid e w = Done r w' /\ calls w' = calls w.
Proof.
  destruct (Z.eq_dec (char_at (guard w) 0) 0) as [H0|H0].
  - rewrite acquire_unlocked by auto. cbn [def_DUETTO]. eauto.
  - rewrite acquire_initialized by exact H0. cbn [def_DUETTO]. eauto.
Qed.

(** X8: under [__DUETTO__] no entry point ever blocks, terminates the
    process or calls the threading library: each returns, with the call log
    untouched, whatever the word holds.  A first [__cxa_guard_acquire] on the
    all-zero word returns 1 and leaves the word equal to 1, and every
    further call before release or abort, re-entrant ones included, returns
    0: the re-entry is neither detected nor blocked. *)
Theorem duetto_never_blocks (tid : Z) (e : env) (w : world)
    (wr : list Z) (cl : list (prim * Z)) (cs : list (Z * env)) :
  (exists r w', __cxa_guard_acquire Duetto tid e w = Done r w'
                /\ calls w' = calls w) /\
  (exists w', __cxa_guard_release Duetto e w = Done tt w' /\ calls w' = calls w) /\
  (exists w', __cxa_guard_abort Duetto e w = Done tt w' /\ calls w' = calls w) /\
  acquire_each Duetto ((tid, e) :: cs) (World 0 wr cl)
    = Done (1 :: map (fun _ => 0) cs) (World 1 (1 :: wr) cl).
Proof.
  split; [|split; [|split]].
  - apply duetto_quiet.
  - rewrite release_eq. cbn [def_DUETTO]. eauto.
  - rewrite abort_eq. cbn [def_DUETTO]. eauto.
  - cbn [acquire_each]. unfold bind at 1.
    rewrite acquire_unlocked by (cbn; auto). cbn [def_DUETTO].
    unfold bind, ret. rewrite acquire_each_duetto_refused by (cbn; discriminate).
    reflexivity.
Qed.

(** X9: under the boolean encoding (neither Apple nor [__DUETTO__]) the
    self-deadlock is not detected: a thread that has been granted a guard
    word and calls [__cxa_guard_acquire] on it again is not told, it blocks
    in [pthread_cond_wait], storing nothing, for as long as its wake-ups find
    the lock field set. *)
Theorem boolean_reentry_blocks (t : target) (tid : Z) (e0 : env) (w0 w1 : world)
    (ws : list wake) :
  wide_lock t = false ->
  __cxa_guard_acquire t tid e0 w0 = Done 1 w1 ->
  Forall (still_locked t) ws ->
  exists w2, __cxa_guard_acquire t tid (quiet ws) w1 = Parked w2
             /\ writes w2 = writes w1.
Proof.
  intros Hw Hgrant Hws.
  assert (Hd : def_DUETTO t = false) by (destruct t; try discriminate; reflexivity).
  assert (Ha : def_APPLE t = false) by (destruct t; try discriminate; reflexivity).
  apply acquire_Done in Hgrant as (seen & _ & [[H _] | (_ & _ & _ & Hg & _)]);
    [discriminate |].
  assert (Hc : contended t tid (guard w1)).
  { rewrite Hg. split; [apply set_lock_char0; exact Hd |]. split.
    - rewrite get_lock_set_lock by exact Hd.
      unfold own_lock. rewrite Ha. destruct t; try discriminate; cbn; lia.
    - rewrite Ha. discriminate. }
  destruct (acquire_contended_waits t tid ws w1 Hd Hc Hws) as (w2 & E & Hw2 & _).
  exists w2. auto.
Qed.

Lemma boolean_reentry_blocks_witness :
  exists w2,
    __cxa_guard_acquire Arm32 7 (quiet [Wake 0 256; Wake 0 256])
      (World 256 [256] [(MutexUnlock, 0); (MutexLock, 0)]) = Parked w2
    /\ writes w2 = [256].
Proof.
  apply (boolean_reentry_blocks Arm32 7 (quiet []) (fresh 0)
           (World 256 [256] [(MutexUnlock, 0); (MutexLock, 0)])
           [Wake 0 256; Wake 0 256]).
  - reflexivity.
  - reflexivity.
  - repeat constructor; cbn; discriminate.
Defined.

(** ** The order of the pthread calls *)

Lemma do_while_Done_calls (t : target) (ws : list wake) (w w1 : world) :
  wait_do_while_lock t ws w = Done tt w1 ->
  exists n, (1 <= n <= length ws)%nat /\
            calls w1 = repeat (CondWait, 0) n ++ calls w.
Proof.
  revert w. induction ws as [|k ws IH]; intros w; cbn [wait_do_while_lock].
  - discriminate.
  - unfold check, woken, ret, abort_message, bind.
    destruct (Z.eqb_spec (wake_rc k) 0) as [Hrc|Hrc]; [|discriminate].
    cbn [guard]. rewrite Hrc.
    destruct (get_lock t (wake_guard k) =? 0).
    + intros H. injection H as <-. exists 1%nat. cbn [length]. split; [lia | reflexivity].
    + intros H. apply IH in H as (n & Hn & Hc). exists (S n). cbn [length].
      split; [lia |]. rewrite Hc. cbn [calls]. apply repeat_snoc_app.
Qed.

Lemma while_Done_calls (t : target) (ws : list wake) (w w1 : world) :
  wait_while_locked t ws w = Done tt w1 ->
  exists n, (n <= length ws)%nat /\
            calls w1 = repeat (CondWait, 0) n ++ calls w.
Proof.
  destruct (Z.eq_dec (get_lock t (guard w)) 0) as [E|E].
  - rewrite wait_while_locked_unlocked by exact E.
    intros H. injection H as <-. exists 0%nat. split; [lia | reflexivity].
  - rewrite wait_while_locked_locked by exact E.
    intros H. apply do_while_Done_calls in H as (n & Hn & Hc).
    exists n. split; [lia | exact Hc].
Qed.

(** X10: the mutex is taken and given back in order.  When
    [__cxa_guard_acquire] returns (outside [__DUETTO__]) it has locked the
    mutex once, then waited on the condition variable some number of times,
    at most once per wake-up, each wait having succeeded, then unlocked the
    mutex once, and nothing else.  When [__cxa_guard_release] or
    [__cxa_guard_abort] returns it has locked, unlocked and only then
    broadcast, each once.  Under [__DUETTO__] none of them has made a
    call. *)
Theorem mutex_discipline (t : target) (tid : Z) (e : env) (w w' : world) (r : Z) :
  (__cxa_guard_acquire t tid e w = Done r w' ->
   exists n, (n <= length (wakes e))%nat /\
     calls w' = (if def_DUETTO t then []
                 else (MutexUnlock, 0) :: repeat (CondWait, 0) n ++ [(MutexLock, 0)])
                ++ calls w) /\
  (__cxa_guard_release t e w = Done tt w' ->
   calls w' = (if def_DUETTO t then []
               else [(CondBroadcast, 0); (MutexUnlock, 0); (MutexLock, 0)])
              ++ calls w) /\
  (__cxa_guard_abort t e w = Done tt w' ->
   calls w' = (if def_DUETTO t then []
               else [(CondBroadcast, 0); (MutexUnlock, 0); (MutexLock, 0)])
              ++ calls w).
Proof.
  split; [|split].
  - destruct (def_DUETTO t) eqn:Hd.
    { destruct t; try discriminate.
      destruct (duetto_quiet tid e w) as (r0 & w0 & E & Hc).
      rewrite E. intros H. injection H as _ <-. exists 0%nat. split; [lia | exact Hc]. }
    assert (Hshort : forall b w0,
              (if lock_rc e =? 0
               then if unlock_rc e =? 0
                    then Done b (logged MutexUnlock (unlock_rc e)
                                   (w0 (logged MutexLock (lock_rc e) w)))
                    else Fatal "__cxa_guard_acquire failed to release mutex"
                           (logged MutexUnlock (unlock_rc e)
                              (w0 (logged MutexLock (lock_rc e) w)))
               else Fatal "__cxa_guard_acquire failed to acquire mutex"
                      (logged MutexLock (lock_rc e) w)) = Done r w' ->
              (forall v, calls (w0 v) = calls v) ->
              exists n, (n <= length (wakes e))%nat /\
                calls w' = ((MutexUnlock, 0) :: repeat (CondWait, 0) n ++ [(MutexLock, 0)])
                           ++ calls w).
    { intros b w0 H Hw0.
      destruct (Z.eqb_spec (lock_rc e) 0) as [Hl|]; [|discriminate].
      destruct (Z.eqb_spec (unlock_rc e) 0) as [Hu|]; [|discriminate].
      injection H as _ <-. exists 0%nat. split; [lia |].
      cbn [calls logged]. rewrite Hw0, Hu, Hl. reflexivity. }
    destruct (Z.eq_dec (char_at (guard w) 0) 0) as [H0|H0].
    2:{ rewrite acquire_initialized, Hd by exact H0. intros H.
        apply (Hshort 0 (fun v => v) H). reflexivity. }
    destruct (Z.eq_dec (get_lock t (guard w)) 0) as [HL|HL].
    { rewrite acquire_unlocked, Hd by auto. cbn zeta. intros H.
      apply (Hshort 1 (stored (set_lock t (guard w) (own_lock t tid))) H). reflexivity. }
    clear Hshort. pose proof HL as HLb.
    apply Z.eqb_neq in HLb. apply Z.eqb_eq in H0.
    destruct t; try discriminate Hd; acquire_unfold;
      (destruct (Z.eqb_spec (lock_rc e) 0) as [Hl|]; [|discriminate]);
      cbn [guard logged]; rewrite H0.
    + rewrite HLb. cbn [negb].
      destruct (get_lock Apple64 (guard w) =? lock_cast Apple64 tid); [discriminate |].
      destruct (wait_do_while_lock Apple64 (wakes e) (logged MutexLock (lock_rc e) w))
        as [[] w1|msg w1|w1] eqn:EL; intros H; try discriminate H; revert H.
      apply do_while_Done_calls in EL as (n & Hn & Hc). cbn [calls logged] in Hc.
      intros H. exists n. split; [lia |]. revert H.
      destruct (negb (is_initialized Apple64 (guard w1)));
        (destruct (Z.eqb_spec (unlock_rc e) 0) as [Hu|]; [|discriminate]);
        intros H; injection H as _ <-; cbn [calls logged stored];
        rewrite Hc, Hu, Hl; cbn [app]; rewrite <- app_assoc; reflexivity.
    + destruct (wait_while_locked Arm32 (wakes e) (logged MutexLock (lock_rc e) w))
        as [[] w1|msg w1|w1] eqn:EL; intros H; try discriminate H; revert H.
      apply while_Done_calls in EL as (n & Hn & Hc). cbn [calls logged] in Hc.
      intros H. exists n. split; [lia |]. revert H.
      destruct (char_at (guard w1) 0 =? 0);
        (destruct (Z.eqb_spec (unlock_rc e) 0) as [Hu|]; [|discriminate]);
        intros H; injection H as _ <-; cbn [calls logged stored];
        rewrite Hc, Hu, Hl; cbn [app]; rewrite <- app_assoc; reflexivity.
    + destruct (wait_while_locked Generic64 (wakes e) (logged MutexLock (lock_rc e) w))
        as [[] w1|msg w1|w1] eqn:EL; intros H; try discriminate H; revert H.
      apply while_Done_calls in EL as (n & Hn & Hc). cbn [calls logged] in Hc.
      intros H. exists n. split; [lia |]. revert H.
      destruct (char_at (guard w1) 0 =? 0);
        (destruct (Z.eqb_spec (unlock_rc e) 0) as [Hu|]; [|discriminate]);
        intros H; injection H as _ <-; cbn [calls logged stored];
        rewrite Hc, Hu, Hl; cbn [app]; rewrite <- app_assoc; reflexivity.
  - rewrite release_eq. destruct (def_DUETTO t).
    + intros H. injection H as <-. reflexivity.
    + destruct (Z.eqb_spec (lock_rc e) 0) as [Hl|]; [|discriminate]. cbn zeta.
      destruct (Z.eqb_spec (unlock_rc e) 0) as [Hu|]; [|discriminate].
      destruct (Z.eqb_spec (broadcast_rc e) 0) as [Hb|]; [|discriminate].
      intros H. injection H as <-. cbn [calls logged stored].
      rewrite Hl, Hu, Hb. reflexivity.
  - rewrite abort_eq. destruct (def_DUETTO t).
    + intros H. injection H as <-. reflexivity.
    + destruct (Z.eqb_spec (lock_rc e) 0) as [Hl|]; [|discriminate]. cbn zeta.
      destruct (Z.eqb_spec (unlock_rc e) 0) as [Hu|]; [|discriminate].
      destruct (Z.eqb_spec (broadcast_rc e) 0) as [Hb|]; [|discriminate].
      intros H. injection H as <-. cbn [calls logged stored].
      rewrite Hl, Hu, Hb. reflexivity.
Qed.

Lemma mutex_discipline_witness :
  exists n, (n <= 2)%nat /\
    [(MutexUnlock, 0); (CondWait, 0); (CondWait, 0); (MutexLock, 0)]
      = ((MutexUnlock, 0) :: repeat (CondWait, 0) n ++ [(MutexLock, 0)]) ++ [].
Proof.
  apply (proj1 (mutex_discipline Generic64 7 (quiet [Wake 0 256; Wake 0 1]) (fresh 256)
                  (World 1 [] [(MutexUnlock, 0); (CondWait, 0); (CondWait, 0);
                               (MutexLock, 0)]) 0)).
  reflexivity.
Defined.

(** ** The race with failing initializers *)

Lemma inv2_start (t : target) (tids : list Z) : inv2 t tids (start tids).
Proof.
  destruct (inv_start t tids) as (Hc & Hf & _).
  split; [exact Hc |]. split; [exact Hf |].
  exists Free. split; [reflexivity |].
  intros i tid st Hi. unfold start in Hi. cbn [pool] in Hi.
  change (map (fun tid0 : Z => (tid0, Idle)) tids)
    with ((fun tid0 : Z => (tid0, Idle)) <$> tids) in Hi.
  rewrite list_lookup_fmap in Hi. destruct (tids !! i); [|discriminate].
  injection Hi as _ <-. exact I.
Qed.

(** The entries other than [i] stay in order when the mode moves on in one
    of the ways the race allows. *)
Lemma status_ok_moves (t : target) (m m' : mode) (j : nat) (tid : Z) (st : status) :
  status_ok t m j tid st ->
  (m = Free \/ (exists k, m = Held k /\ j <> k /\ (m' = Free \/ m' = Ready k))
   \/ m' = m) ->
  (forall k, m = Ready k -> m' = m) ->
  status_ok t m' j tid st.
Proof.
  intros Hst Hm Hready. destruct st as [|g0 ws|r|]; cbn [status_ok] in *.
  - exact I.
  - exact Hst.
  - destruct Hst as [[-> ->] | [-> [Hd | [k ->]]]].
    + destruct Hm as [Hm | [(k & Hk & Hne & _) | ->]];
        [discriminate | injection Hk as <-; contradiction | left; auto].
    + right. auto.
    + rewrite (Hready k eq_refl). right. eauto.
  - subst m. rewrite (Hready j eq_refl). reflexivity.
Qed.

Lemma inv2_update (t : target) (tids : list Z) (s : system) (g : Z) (i : nat)
    (tid : Z) (st st' : status) (m m' : mode) :
  crashed s = None -> fst <$> pool s = tids ->
  pool s !! i = Some (tid, st) ->
  (forall j tidj stj, pool s !! j = Some (tidj, stj) -> status_ok t m j tidj stj) ->
  mode_ok t (System g (<[i := (tid, st')]> (pool s)) (crashed s)) m' ->
  status_ok t m' i tid st' ->
  (forall j tidj stj, j <> i -> pool s !! j = Some (tidj, stj) ->
                      status_ok t m j tidj stj -> status_ok t m' j tidj stj) ->
  inv2 t tids (System g (<[i := (tid, st')]> (pool s)) (crashed s)).
Proof.
  intros Hc Hf Hi Hall Hm' Hst' Hothers.
  split; [exact Hc |]. split; [cbn [pool]; rewrite (pool_insert_ids _ _ _ _ _ Hi); exact Hf |].
  exists m'. split; [exact Hm' |]. cbn [pool].
  intros j tidj stj Hj. destruct (decide (j = i)) as [->|Hne].
  - rewrite list_lookup_insert_eq in Hj by (eapply lookup_lt_Some; exact Hi).
    injection Hj as <- <-. exact Hst'.
  - rewrite list_lookup_insert_ne in Hj by auto.
    apply Hothers; [exact Hne | exact Hj | apply Hall; exact Hj].
Qed.

Lemma abort_fresh (t : target) (g : Z) :
  exists w', __cxa_guard_abort t (quiet []) (fresh g) = Done tt w' /\ guard w' = 0.
Proof.
  rewrite abort_eq. destruct (def_DUETTO t); eexists; split; reflexivity.
Qed.

Lemma holder_contends (t : target) (tids : list Z) (l : list (Z * status))
    (i k : nat) (tid tidk : Z) (st stk : status) :
  identities_ok t tids -> fst <$> l = tids -> def_DUETTO t = false ->
  l !! i = Some (tid, st) -> l !! k = Some (tidk, stk) -> i <> k ->
  contended t tid (granted_word t tidk).
Proof.
  intros Hids Hf Hd Hi Hk Hik.
  assert (Htidk : def_APPLE t = true -> thread_id tidk)
    by (eapply holder_identity; eassumption).
  destruct (granted_word_locked t tidk Hd Htidk) as (H0 & _ & HL).
  split; [exact H0 |]. split; [exact HL |].
  eapply other_identity; eassumption.
Qed.

Ltac mode_moves :=
  intros ? ? ? ? ? ?; eapply status_ok_moves;
  [ eassumption
  | first [ left; reflexivity
          | right; right; reflexivity
          | right; left; eexists; split; [reflexivity | split; [congruence | auto]] ]
  | intros ? ?; first [discriminate | reflexivity] ].

Lemma act_inv2 (t : target) (tids : list Z) (m : move) (s : system) :
  identities_ok t tids -> inv2 t tids s -> inv2 t tids (act t m s).
Proof.
  intros Hids (Hc & Hf & md & Hmd & Hall).
  assert (Hsame : inv2 t tids s).
  { split; [exact Hc |]. split; [exact Hf |]. exists md. auto. }
  destruct m as [i|i]; cbn [act]; [unfold step |]; rewrite Hc;
    (destruct (pool s !! i) as [[tid st]|] eqn:Hi; [|exact Hsame]);
    pose proof (Hall i tid st Hi) as Hst;
    assert (Hlt : (i < length (pool s))%nat) by (eapply lookup_lt_Some; exact Hi).
  - destruct st as [|g0 ws|r|]; cbn [status_ok] in Hst.
    + (* thread i calls acquire *)
      destruct md as [|k|k]; cbn [mode_ok] in Hmd.
      * rewrite Hmd. destruct (acquire_fresh_zero t tid) as (w' & E & Hg).
        rewrite (settle_Done _ _ _ _ _ _ _ _ E).
        apply (inv2_update t tids s _ i tid Idle _ Free (Held i)); auto.
        { exists tid. cbn [pool word]. split; [|exact Hg].
          apply list_lookup_insert_eq. exact Hlt. }
        { left. auto. }
        { mode_moves. }
      * destruct Hmd as (tidk & Hk & Hw).
        assert (Hik : i <> k) by (intros ->; rewrite Hi in Hk; discriminate).
        destruct (def_DUETTO t) eqn:Hd.
        { assert (Hw1 : word s = 1).
          { rewrite Hw. destruct t; try discriminate. reflexivity. }
          rewrite Hw1. destruct (acquire_fresh_one t tid) as (w' & E & Hg).
          rewrite (settle_Done _ _ _ _ _ _ _ _ E).
          apply (inv2_update t tids s _ i tid Idle _ (Held k) (Held k)); auto.
          - exists tidk. cbn [pool word]. split.
            + rewrite list_lookup_insert_ne by exact Hik. exact Hk.
            + rewrite Hg, <- Hw1. exact Hw.
          - right. auto. }
        assert (Hcont : contended t tid (granted_word t tidk))
          by (eapply holder_contends; eassumption).
        rewrite Hw.
        destruct (acquire_contended_waits t tid [] (fresh (granted_word t tidk))
                    Hd Hcont (List.Forall_nil _)) as (w' & E & _).
        rewrite (settle_Parked _ _ _ _ _ _ _ E).
        apply (inv2_update t tids s _ i tid Idle _ (Held k) (Held k)); auto.
        { exists tidk. cbn [pool word]. split; [|exact Hw].
          rewrite list_lookup_insert_ne by exact Hik. exact Hk. }
        { cbn [status_ok]. auto. }
      * destruct Hmd as (tidk & Hk & Hw).
        assert (Hik : i <> k) by (intros ->; rewrite Hi in Hk; discriminate).
        rewrite Hw. destruct (acquire_fresh_one t tid) as (w' & E & Hg).
        rewrite (settle_Done _ _ _ _ _ _ _ _ E).
        apply (inv2_update t tids s _ i tid Idle _ (Ready k) (Ready k)); auto.
        { exists tidk. cbn [pool word]. split; [|exact Hg].
          rewrite list_lookup_insert_ne by exact Hik. exact Hk. }
        { right. eauto. }
    + (* thread i is woken *)
      destruct Hst as (Hd & Hcont & Hws).
      destruct md as [|k|k]; cbn [mode_ok] in Hmd.
      * rewrite Hmd.
        destruct (acquire_contended_leaves t tid ws [] (Wake 0 0) (fresh g0)
                    Hd Hcont Hws eq_refl) as (w' & E & Hg & _).
        { destruct t; reflexivity. }
        cbn [wake_guard] in E, Hg. change (char_at 0 0 =? 0) with true in E, Hg.
        cbn [Z.b2z] in E. rewrite (settle_Done _ _ _ _ _ _ _ _ E).
        apply (inv2_update t tids s _ i tid (Waiting g0 ws) _ Free (Held i)); auto.
        { exists tid. cbn [pool word]. split; [|exact Hg].
          apply list_lookup_insert_eq. exact Hlt. }
        { left. auto. }
        { mode_moves. }
      * destruct Hmd as (tidk & Hk & Hw).
        assert (Hik : i <> k) by (intros ->; rewrite Hi in Hk; discriminate).
        assert (Hcontk : contended t tid (granted_word t tidk))
          by (eapply holder_contends; eassumption).
        assert (Hws' : Forall (still_locked t) (ws ++ [Wake 0 (word s)])).
        { apply Forall_app. split; [exact Hws |]. constructor; [|constructor].
          split; [reflexivity |]. cbn [wake_guard]. rewrite Hw. apply Hcontk. }
        destruct (acquire_contended_waits t tid _ (fresh g0) Hd Hcont Hws')
          as (w' & E & _).
        rewrite (settle_Parked _ _ _ _ _ _ _ E).
        apply (inv2_update t tids s _ i tid (Waiting g0 ws) _ (Held k) (Held k)); auto.
        { exists tidk. cbn [pool word]. split; [|exact Hw].
          rewrite list_lookup_insert_ne by exact Hik. exact Hk. }
        { cbn [status_ok]. auto. }
      * destruct Hmd as (tidk & Hk & Hw).
        assert (Hik : i <> k) by (intros ->; rewrite Hi in Hk; discriminate).
        rewrite Hw.
        destruct (acquire_contended_leaves t tid ws [] (Wake 0 1) (fresh g0)
                    Hd Hcont Hws eq_refl) as (w' & E & Hg & _).
        { destruct t; try discriminate; reflexivity. }
        cbn [wake_guard] in E, Hg. change (char_at 1 0 =? 0) with false in E, Hg.
        cbn [Z.b2z] in E. rewrite (settle_Done _ _ _ _ _ _ _ _ E).
        apply (inv2_update t tids s _ i tid (Waiting g0 ws) _ (Ready k) (Ready k)); auto.
        { exists tidk. cbn [pool word]. split; [|exact Hg].
          rewrite list_lookup_insert_ne by exact Hik. exact Hk. }
        { right. eauto. }
    + (* thread i has returned from acquire *)
      destruct Hst as [[-> ->] | [-> _]]; [|exact Hsame].
      cbn [Z.eqb]. unfold finish.
      destruct (release_fresh t (word s)) as (w' & -> & Hg).
      apply (inv2_update t tids s _ i tid (Returned 1) _ (Held i) (Ready i)); auto.
      { exists tid. cbn [pool word]. split; [|exact Hg].
        apply list_lookup_insert_eq. exact Hlt. }
      { reflexivity. }
      { mode_moves. }
    + exact Hsame.
  - destruct st as [|g0 ws|r|]; try exact Hsame. cbn [status_ok] in Hst.
    destruct Hst as [[-> ->] | [-> _]]; [|exact Hsame].
    cbn [Z.eqb]. unfold back_out.
    destruct (abort_fresh t (word s)) as (w' & -> & Hg).
    apply (inv2_update t tids s _ i tid (Returned 1) _ (Held i) Free); auto.
    + exact I.
    + mode_moves.
Qed.

Lemma play_inv2 (t : target) (tids : list Z) (ms : list move) (s : system) :
  identities_ok t tids -> inv2 t tids s -> inv2 t tids (play t ms s).
Proof.
  intros Hids. revert s. induction ms as [|m ms IH]; intros s Hs.
  - exact Hs.
  - cbn [play fold_left]. apply IH. apply act_inv2; assumption.
Qed.

(** X11: at most one initializer at a time, also when initializers fail.
    Threads race for a zero-initialized guard word; a thread that is granted
    the word either releases it or, its initializer failing, aborts and may
    try again.  Whatever the interleaving (no pthread call failing; on Apple
    the threads having distinct nonzero identities): the process is not
    terminated; [__cxa_guard_acquire] only ever returns 0 or 1; no two
    threads hold a grant at the same time; while a thread holds one the word
    is the one its grant stored and nobody has released; and at most one
    thread ever releases. *)
Theorem one_initializer_at_a_time (t : target) (tids : list Z) (ms : list move) :
  identities_ok t tids ->
  let s := play t ms (start tids) in
  crashed s = None /\
  (forall i tid r, pool s !! i = Some (tid, Returned r) -> r = 0 \/ r = 1) /\
  (forall i j tidi tidj,
     pool s !! i = Some (tidi, Returned 1) ->
     pool s !! j = Some (tidj, Returned 1) -> i = j) /\
  (forall i tid,
     pool s !! i = Some (tid, Returned 1) ->
     word s = granted_word t tid /\
     forall j tidj, pool s !! j <> Some (tidj, Released)) /\
  (forall i j tidi tidj,
     pool s !! i = Some (tidi, Released) ->
     pool s !! j = Some (tidj, Released) -> i = j).
Proof.
  intros Hids s.
  assert (Hinv : inv2 t tids s) by (apply play_inv2; [exact Hids | apply inv2_start]).
  destruct Hinv as (Hc & Hf & md & Hmd & Hall).
  assert (Hheld : forall i tid, pool s !! i = Some (tid, Returned 1) -> md = Held i).
  { intros i tid Hi. destruct (Hall i tid _ Hi) as [[_ H] | [H _]];
      [exact H | discriminate]. }
  split; [exact Hc |]. split; [|split; [|split]].
  - intros i tid r Hi. destruct (Hall i tid _ Hi) as [[H _] | [H _]]; auto.
  - intros i j tidi tidj Hi Hj.
    pose proof (Hheld i tidi Hi) as H1. pose proof (Hheld j tidj Hj) as H2.
    congruence.
  - intros i tid Hi. pose proof (Hheld i tid Hi) as ->. cbn [mode_ok] in Hmd.
    destruct Hmd as (tidk & Hk & Hw). rewrite Hi in Hk. injection Hk as <-.
    split; [exact Hw |]. intros j tidj Hj.
    pose proof (Hall j tidj _ Hj) as H. cbn [status_ok] in H. discriminate.
  - intros i j tidi tidj Hi Hj.
    pose proof (Hall i tidi _ Hi) as H1. pose proof (Hall j tidj _ Hj) as H2.
    cbn [status_ok] in H1, H2. congruence.
Qed.

Lemma one_initializer_at_a_time_witness :
  crashed (play Apple64 [Advance 0; Advance 1; Throw 0; Advance 1; Advance 2;
                         Advance 0; Advance 1; Advance 2; Advance 0]%nat
             (start [11; 12; 13])) = None /\
  pool (play Apple64 [Advance 0; Advance 1; Throw 0; Advance 1; Advance 2;
                      Advance 0; Advance 1; Advance 2; Advance 0]%nat
          (start [11; 12; 13]))
    = [(11, Returned 0); (12, Released); (13, Returned 0)].
Proof.
  assert (Hids : identities_ok Apple64 [11; 12; 13]).
  { intros _. split.
    - repeat (apply NoDup_cons_2; [rewrite ?elem_of_cons, elem_of_nil; lia |]).
      apply NoDup_nil_2.
    - repeat constructor; unfold thread_id; lia. }
  split.
  - exact (proj1 (one_initializer_at_a_time Apple64 [11; 12; 13]
                    [Advance 0; Advance 1; Throw 0; Advance 1; Advance 2;
                     Advance 0; Advance 1; Advance 2; Advance 0]%nat Hids)).
  - reflexivity.
Defined.

(** X12: outside [__DUETTO__] nobody is told that the static is ready before
    it is.  In the same race, whenever a call of [__cxa_guard_acquire] has
    returned 0, some thread has called [__cxa_guard_release] (after its
    initializer succeeded) and the initialized field of the word is set. *)
Theorem refused_only_after_release (t : target) (tids : list Z) (ms : list move) :
  def_DUETTO t = false -> identities_ok t tids ->
  let s := play t ms (start tids) in
  forall i tid,
    pool s !! i = Some (tid, Returned 0) ->
    (exists k tidk, pool s !! k = Some (tidk, Released)) /\
    is_initialized t (word s) = true.
Proof.
  intros Hd Hids s i tid Hi.
  assert (Hinv : inv2 t tids s) by (apply play_inv2; [exact Hids | apply inv2_start]).
  destruct Hinv as (Hc & Hf & md & Hmd & Hall).
  destruct (Hall i tid _ Hi) as [[H _] | [_ [H | [k ->]]]];
    [discriminate | congruence |].
  cbn [mode_ok] in Hmd. destruct Hmd as (tidk & Hk & Hw).
  split; [eauto |]. rewrite Hw. destruct t; reflexivity.
Qed.

Lemma refused_only_after_release_witness :
  (exists k tidk,
     pool (play Generic64 [Advance 0; Advance 1; Throw 0; Advance 1; Advance 2;
                           Advance 1; Advance 2]%nat (start [11; 12; 13])) !! k
       = Some (tidk, Released)) /\
  is_initialized Generic64
    (word (play Generic64 [Advance 0; Advance 1; Throw 0; Advance 1; Advance 2;
                           Advance 1; Advance 2]%nat (start [11; 12; 13]))) = true.
Proof.
  assert (Hids : identities_ok Generic64 [11; 12; 13]) by (intros H; discriminate H).
  apply (refused_only_after_release Generic64 [11; 12; 13]
           [Advance 0; Advance 1; Throw 0; Advance 1; Advance 2;
            Advance 1; Advance 2]%nat eq_refl Hids 2%nat 13).
  reflexivity.
Defined.

(** ** The layout of the guard word *)

(** X13: [get_lock] depends on the bits of the lock field only and
    [is_initialized] on the bits of the initialized field only.  On every
    target other than [__DUETTO__] the two fields have no bit in common;
    under [__DUETTO__] they share bit 0. *)
Theorem field_layout (t : target) (x x' : Z) :
  ((forall i, in_lock_field t i = true -> Z.testbit x i = Z.testbit x' i) ->
   get_lock t x = get_lock t x') /\
  ((forall i, in_initialized_field t i = true -> Z.testbit x i = Z.testbit x' i) ->
   is_initialized t x = is_initialized t x') /\
  (forall i, in_lock_field t i && in_initialized_field t i
             = def_DUETTO t && (i =? 0)).
Proof.
  split; [apply get_lock_reads_lock_field |].
  split; [apply is_initialized_reads_field |].
  intros i. unfold in_lock_field, in_initialized_field.
  destruct t; cbn [wide_lock narrow_guard def_APPLE def_DUETTO def_arm andb orb negb];
    lia.
Qed.

Lemma field_layout_witness :
  get_lock Apple64 21474836480 = get_lock Apple64 21474836481 /\
  is_initialized Apple64 1 = is_initialized Apple64 21474836481.
Proof.
  split.
  - apply (proj1 (field_layout Apple64 21474836480 21474836481)).
    intros i Hi. unfold in_lock_field in Hi. cbn in Hi.
    change 21474836481 with (Z.lor 21474836480 1).
    rewrite Z.lor_spec. replace (Z.testbit 1 i) with false; [symmetry; apply orb_false_r |].
    symmetry. change 1 with (Z.ones 1). rewrite Z.testbit_ones_nonneg by lia. lia.
  - apply (proj1 (proj2 (field_layout Apple64 1 21474836481))).
    intros i Hi. unfold in_initialized_field in Hi. cbn in Hi.
    change 21474836481 with (Z.lor 21474836480 1).
    change 21474836480 with (Z.shiftl 5 32).
    rewrite Z.lor_spec, Z.shiftl_spec by lia.
    rewrite (Z.testbit_neg_r 5) by lia. reflexivity.
Defined.

(** X14: no store wraps around.  Whenever an entry point returns, every
    value it has stored into the guard word lies within the guard type of
    the target ([uint32_t] or [uint64_t]), whatever the word held before. *)
Theorem stores_fit_guard_type (t : target) (tid : Z) (e : env) (w w' : world) (r : Z) :
  (__cxa_guard_acquire t tid e w = Done r w' ->
   exists l, writes w' = l ++ writes w /\
             Forall (fun v => 0 <= v < 2 ^ guard_bits t) l) /\
  (__cxa_guard_release t e w = Done tt w' ->
   exists l, writes w' = l ++ writes w /\
             Forall (fun v => 0 <= v < 2 ^ guard_bits t) l) /\
  (__cxa_guard_abort t e w = Done tt w' ->
   exists l, writes w' = l ++ writes w /\
             Forall (fun v => 0 <= v < 2 ^ guard_bits t) l).
Proof.
  assert (Hzero : 0 <= 0 < 2 ^ guard_bits t) by (destruct t; cbn; lia).
  split; [|split]; intros H.
  - apply acquire_Done in H as (seen & _ & [(_ & _ & Hw) | (_ & _ & _ & _ & Hw)]).
    + exists []. split; [exact Hw | constructor].
    + exists [set_lock t seen (own_lock t tid)]. split; [exact Hw |].
      constructor; [apply set_lock_fits | constructor].
  - apply release_Done in H as [_ Hw]. exists [1; 0]. split; [exact Hw |].
    constructor; [destruct t; cbn; lia |]. constructor; [exact Hzero | constructor].
  - apply abort_Done in H as [_ Hw]. exists [0]. split; [exact Hw |].
    constructor; [exact Hzero | constructor].
Qed.

Lemma stores_fit_guard_type_witness :
  exists l, [21474836480] = l ++ [] /\
            Forall (fun v => 0 <= v < 2 ^ guard_bits Apple64) l.
Proof.
  apply (proj1 (stores_fit_guard_type Apple64 5 (quiet []) (fresh 0)
                  (World 21474836480 [21474836480]
                     [(MutexUnlock, 0); (MutexLock, 0)]) 1)).
  reflexivity.
Defined.
